(** * adsb2dd: the Doppler estimators of the analysis scripts

    The subject is [calculatePositionBasedDoppler] of
    src/analyze_discrepancy.js, the synthetic trajectory that script feeds
    it, and the use the second script makes of the velocity-based
    estimator.

    JavaScript numbers are IEEE 754 binary64 values, so the embedding works
    on Rocq's primitive [float]: [+], [-], [*], [/] and [sqrt] round to
    nearest-even exactly as the JavaScript operators do, there is a single
    NaN, and the two zeros are distinct values.  Equality on [float] is
    therefore identity of bits, up to the payload of NaN, which the
    language leaves open.  General facts about the operators come from
    their specification on [spec_float] ([add_spec], [sub_spec], ...).

    Three functions of the repository are imported by the scripts and are
    not among the sources: [norm] and [lla2ecef] are parameters of the
    embedding, and [calculateDopplerFromVelocity] is modelled from the
    specification.  For runs on concrete inputs [norm] is instantiated
    with the Euclidean norm the specification describes.

    The estimator is embedded twice: as a function of its arguments, for
    what it computes, and as a procedure in which every call of [norm]
    acts on a state ([Procedure]), for what two invocations have to do
    with each other and for the calls it makes. *)

From Stdlib Require Import List ZArith Bool Lia.
From Stdlib Require Import Floats.
From Stdlib Require String.
Import ListNotations.

#[local] Set Warnings "-inexact-float".
#[local] Open Scope float_scope.

(** ** Data model *)

(** An ECEF point, the object [{x, y, z}] that [lla2ecef] returns. *)
Record Ecef : Set := mkEcef { x : float; y : float; z : float }.

(** [a[i]] read as a number: an index past the end of a JavaScript array
    gives [undefined], and [undefined] in an arithmetic operator is NaN. *)
Definition idx (a : list float) (i : nat) : float := nth i a nan.

(** Modelled from the spec: [norm] of node/geometry.js, which is imported
    by the script and is not among the sources.  Section 4.1 gives it as
    the Euclidean length [sqrt(x^2 + y^2 + z^2)] of its array argument. *)
Definition vectorNorm (v : list float) : float :=
  sqrt (fold_left (fun acc val => acc + val * val) v 0).

(** ** The estimator *)

Section PositionDoppler.

(** The imported [norm]; the estimator is embedded for any such function. *)
Variable norm : list float -> float.

(** The body of the arrow function given to [positions.map]. *)
Definition delay_of (ecefRx ecefTx : Ecef) (dRxTx : float) (pos : Ecef) : float :=
  let dRxTar := norm [x ecefRx - x pos; y ecefRx - y pos; z ecefRx - z pos] in
  let dTxTar := norm [x ecefTx - x pos; y ecefTx - y pos; z ecefTx - z pos] in
  dRxTar + dTxTar - dRxTx.

(** [const delays = positions.map(...)], lines 7-11. *)
Definition delays (ecefRx ecefTx : Ecef) (dRxTx : float) (positions : list Ecef)
    : list float :=
  map (delay_of ecefRx ecefTx dRxTx) positions.

(** [calculatePositionBasedDoppler], lines 4-20; [None] is [null]. *)
Definition calculatePositionBasedDoppler
    (positions : list Ecef) (timestamps : list float)
    (ecefRx ecefTx : Ecef) (dRxTx fc : float) : option float :=
  if (length positions <? 2)%nat then None
  else
    let delays := delays ecefRx ecefTx dRxTx positions in
    let n := length delays in
    let dt := idx timestamps (n - 1) - idx timestamps (n - 2) in
    let dd := idx delays (n - 1) - idx delays (n - 2) in
    let range_rate := dd / dt in
    let wavelength := 299792458 / (fc * 1000000) in
    Some (- range_rate / wavelength).

(** *** The vocabulary of the specification

    The definitions below follow the wording of the specification, to be
    compared with the code above. *)

(** Section 4.2: the distance between two points is the norm of their
    difference. *)
Definition range (a b : Ecef) : float :=
  norm [x a - x b; y a - y b; z a - z b].

(** The total bistatic path length of a target position. *)
Definition bistatic_path (rx tx pos : Ecef) : float :=
  range rx pos + range tx pos.

(** Section 4.4: [delay[i] = range(Rx,pos[i]) + range(Tx,pos[i]) - baselineRxTx]. *)
Definition spec_delay (rx tx : Ecef) (baselineRxTx : float) (pos : Ecef) : float :=
  range rx pos + range tx pos - baselineRxTx.

End PositionDoppler.

(** *** The estimator as a procedure

    Whether a call of the imported [norm] reads or changes anything
    besides its argument cannot be seen in the script.  In this second
    embedding a call of [norm] is an action on a state [World] (whatever
    node/geometry.js keeps), and the body of the estimator runs the calls
    in the order in which JavaScript evaluates them: for every position
    from the first to the last, the receiver leg and then the transmitter
    leg.  Apart from its parameters and its local constants the body of
    the function names [norm] only, so it reaches the state through
    these calls and in no other way. *)

Module Procedure.
Section WithWorld.

Variable World : Type.

(** An action: from the state before to a value and the state after. *)
Definition Eff (A : Type) : Type := World -> A * World.

Definition ret {A : Type} (a : A) : Eff A := fun w => (a, w).

Definition bind {A B : Type} (m : Eff A) (k : A -> Eff B) : Eff B :=
  fun w => let (a, w') := m w in k a w'.

#[local] Notation "v <- m ;; k" := (bind m (fun v => k))
  (at level 100, m at next level, right associativity).

(** [Array.prototype.map] with a callback that acts on the state. *)
Fixpoint array_map {A B : Type} (f : A -> Eff B) (a : list A) : Eff (list B) :=
  match a with
  | [] => ret []
  | v :: rest => b <- f v ;; bs <- array_map f rest ;; ret (b :: bs)
  end.

Variable norm : list float -> Eff float.

(** The arrow function of lines 7-11. *)
Definition delay_of (ecefRx ecefTx : Ecef) (dRxTx : float) (pos : Ecef) : Eff float :=
  dRxTar <- norm [x ecefRx - x pos; y ecefRx - y pos; z ecefRx - z pos] ;;
  dTxTar <- norm [x ecefTx - x pos; y ecefTx - y pos; z ecefTx - z pos] ;;
  ret (dRxTar + dTxTar - dRxTx).

(** [calculatePositionBasedDoppler], lines 4-20. *)
Definition calculatePositionBasedDoppler
    (positions : list Ecef) (timestamps : list float)
    (ecefRx ecefTx : Ecef) (dRxTx fc : float) : Eff (option float) :=
  if (length positions <? 2)%nat then ret None
  else
    delays <- array_map (delay_of ecefRx ecefTx dRxTx) positions ;;
    let n := length delays in
    let dt := idx timestamps (n - 1) - idx timestamps (n - 2) in
    let dd := idx delays (n - 1) - idx delays (n - 2) in
    let range_rate := dd / dt in
    let wavelength := 299792458 / (fc * 1000000) in
    ret (Some (- range_rate / wavelength)).

End WithWorld.

Arguments ret {World A} a.
Arguments bind {World A B} m k.
Arguments array_map {World A B} f a.
Arguments delay_of {World} norm ecefRx ecefTx dRxTx pos.
Arguments calculatePositionBasedDoppler {World} norm positions timestamps
  ecefRx ecefTx dRxTx fc.

End Procedure.

(** Section 3: a sample of the history is a position with its timestamp;
    the script keeps the two components in two parallel arrays. *)
Definition PositionSample : Set := (Ecef * float)%type.

Definition positions_of (history : list PositionSample) : list Ecef :=
  map fst history.

Definition timestamps_of (history : list PositionSample) : list float :=
  map snd history.

(** Section 4.3: [wavelength = c / (carrierFreqMHz * 1e6)]. *)
Definition spec_wavelength (carrierFreqMHz : float) : float :=
  299792458 / (carrierFreqMHz * 1000000).

(** Section 4.4: the finite difference over the two most recent samples. *)
Definition spec_rangeRate (delay_prev delay_last t_prev t_last : float) : float :=
  (delay_last - delay_prev) / (t_last - t_prev).

(** Sections 4.1 and 4.2: the Euclidean distance of two ECEF points,
    [sqrt(dx^2 + dy^2 + dz^2)] on the differences of their coordinates. *)
Definition euclidean_distance (a b : Ecef) : float :=
  sqrt ((x a - x b) * (x a - x b) + (y a - y b) * (y a - y b)
        + (z a - z b) * (z a - z b)).

(** A magnitude between [2^-300] and [2^300] (about 5e-91 and 2e90): far
    from the ends of the binary64 range, so that the quotients and the
    product of the estimator neither overflow nor underflow. *)
Definition moderate (v : float) : bool :=
  (0x1p-300 <=? abs v) && (abs v <=? 0x1p300).

(** ** The synthetic scenario of the script, lines 26-56 *)

(** [Math.PI], the binary64 value nearest to pi. *)
Definition Math_PI : float := 3.141592653589793.

(** Modelled from the spec: [ft2m] of node/geometry.js (section 4.1:
    multiply by 0.3048). *)
Definition ft2m (ft : float) : float := ft * 0.3048.

(** The two arrays the loop pushes to. *)
Record Arrays : Set := mkArrays { positions : list Ecef; timestamps : list float }.

Module Script.
Section Trajectory.

(** [lla2ecef] of node/geometry.js is not among the sources, and the
    value of [Math.cos] is left to the engine by the language. *)
Variable lla2ecef : float -> float -> float -> Ecef.
Variable Math_cos : float -> float.

Definition fc : float := 204.64.
Definition gs : float := 88.5.
Definition track : float := 270.
Definition alt : float := 30100.
Definition lat : float := -35.0.
Definition lon : float := 138.65.

Definition offset (t : float) : float := (gs * 0.514444 * t) / 111320.

Definition new_lon (t : float) : float :=
  lon + offset t / Math_cos (lat * Math_PI / 180).

(** One pass through the body of the loop. *)
Definition push_sample (t : float) (h : Arrays) : Arrays :=
  mkArrays (positions h ++ [lla2ecef lat (new_lon t) (ft2m alt)])
            (timestamps h ++ [t]).

(** [for (let t = 0; t <= 10; t++) ...]: [None] when the fuel runs out
    before the condition turns false. *)
Fixpoint for_loop (fuel : nat) (t : float) (h : Arrays) : option Arrays :=
  if t <=? 10 then
    match fuel with
    | 0%nat => None
    | S fuel' => for_loop fuel' (t + 1) (push_sample t h)
    end
  else Some h.

Definition trajectory (fuel : nat) : option Arrays :=
  for_loop fuel 0 (mkArrays [] []).

(** The longitude handed to [lla2ecef] for each pushed timestamp. *)
Definition longitudes (h : Arrays) : list float := map new_lon (timestamps h).

End Trajectory.
End Script.

(** The values [Math.cos] may take at [lat * Math.PI / 180]: the binary64
    number nearest to cos(35 degrees) and its sixteen neighbours on either
    side, which covers every implementation accurate to a few units in the
    last place. *)
Definition cos_window : list float :=
  let lo := Nat.iter 16 next_down 0.8191520442889918 in
  map (fun k => Nat.iter k next_up lo) (seq 0 33).

Definition strictly_increasing (l : list float) : bool :=
  forallb (fun p => fst p <? snd p) (combine l (tl l)).

(** ** The velocity-based estimator *)

(** An aircraft record of the feed, with the fields the scripts read;
    [None] is a field that is absent. *)
Record Aircraft : Set := mkAircraft {
  lat : float;
  lon : float;
  alt_geom : float;
  gs : option float;
  track : option float;
  geom_rate : option float
}.

(** What manualVerification prints on its line 59 or 61. *)
Inductive report : Set :=
| DopplerHz (doppler : float)
| DopplerNull.

Section VelocityDoppler.

Variables Math_sin Math_cos : float -> float.

Definition deg2rad (deg : float) : float := deg * Math_PI / 180.

(** Modelled from the spec: [calculateDopplerFromVelocity] of
    node/doppler.js, which both scripts import and which is not among the
    sources.  Section 4.3: unavailable without ground speed or track;
    otherwise the East-North-Up velocity (knots to m/s by 0.514444, feet
    per minute to m/s by 0.00508, vertical rate 0 when absent) is rotated
    into ECEF at the target's latitude and longitude, projected on the
    sum of the unit vectors towards Rx and Tx, and scaled by the
    wavelength. *)
Definition calculateDopplerFromVelocity
    (aircraft : Aircraft) (aircraft_ecef ecefRx ecefTx : Ecef)
    (dRxTar dTxTar fc : float) : option float :=
  match gs aircraft, track aircraft with
  | Some ground_speed_kn, Some track_deg =>
      let v := ground_speed_kn * 0.514444 in
      let vE := v * Math_sin (deg2rad track_deg) in
      let vN := v * Math_cos (deg2rad track_deg) in
      let vU := match geom_rate aircraft with
                | Some fpm => fpm * 0.00508
                | None => 0
                end in
      let sinLat := Math_sin (deg2rad (lat aircraft)) in
      let cosLat := Math_cos (deg2rad (lat aircraft)) in
      let sinLon := Math_sin (deg2rad (lon aircraft)) in
      let cosLon := Math_cos (deg2rad (lon aircraft)) in
      let vx := - sinLon * vE - sinLat * cosLon * vN + cosLat * cosLon * vU in
      let vy := cosLon * vE - sinLat * sinLon * vN + cosLat * sinLon * vU in
      let vz := cosLat * vN + sinLat * vU in
      let ux := (x ecefRx - x aircraft_ecef) / dRxTar
                + (x ecefTx - x aircraft_ecef) / dTxTar in
      let uy := (y ecefRx - y aircraft_ecef) / dRxTar
                + (y ecefTx - y aircraft_ecef) / dTxTar in
      let uz := (z ecefRx - z aircraft_ecef) / dRxTar
                + (z ecefTx - z aircraft_ecef) / dTxTar in
      let rangeRate := - (vx * ux + vy * uy + vz * uz) in
      let wavelength := 299792458 / (fc * 1000000) in
      Some (- rangeRate / wavelength)
  | _, _ => None
  end.

(** manualVerification, lines 58-62: the branch on [doppler_manual !== null]. *)
Definition report_manual (doppler_manual : option float) : report :=
  match doppler_manual with
  | Some doppler => DopplerHz doppler
  | None => DopplerNull
  end.

End VelocityDoppler.

(** ** Classes of binary64 values *)

(** Not-a-number or an infinity. *)
Definition SFnonfinite (s : spec_float) : Prop :=
  match s with
  | S754_nan | S754_infinity _ => True
  | _ => False
  end.

(** A number (not NaN) whose sign bit is [b]. *)
Definition SFsigned (b : bool) (s : spec_float) : Prop :=
  match s with
  | S754_nan => False
  | S754_zero s' | S754_infinity s' | S754_finite s' _ _ => s' = b
  end.

(** The mantissa of a finite number brought to the exponent [ez], with its
    sign: the integer that [SFadd] and [SFsub] compute with. *)
Definition aligned (s : bool) (m : positive) (e ez : Z) : Z :=
  cond_Zopp s (Zpos (fst (shl_align m e ez))).

Definition SFzero_or_nan (s : spec_float) : Prop :=
  match s with
  | S754_zero _ | S754_nan => True
  | _ => False
  end.

(** NaN, a zero, or a number without sign bit. *)
Definition SFnot_negative (s : spec_float) : Prop :=
  match s with
  | S754_nan | S754_zero _ => True
  | S754_infinity b | S754_finite b _ _ => b = false
  end.

(** NaN, a zero, or a number with sign bit. *)
Definition SFnot_positive (s : spec_float) : Prop :=
  match s with
  | S754_nan | S754_zero _ => True
  | S754_infinity b | S754_finite b _ _ => b = true
  end.

(** ** Rounding to nearest, spelled out

    The notions below serve the proof that binary64 subtraction is
    monotone.  Integers count units of [2^-1074], the smallest positive
    binary64 number, of which every finite binary64 number is a multiple. *)

#[local] Open Scope Z_scope.

(** What [k] right shifts leave of [D]: the quotient by [2^k] as mantissa,
    and the position of the remainder relative to half of [2^k] in the
    round and sticky bits. *)
Definition shifted (D : Z) (k : nat) (mrs : shr_record) : Prop :=
  exists rem,
    D = shr_m mrs * 2 ^ Z.of_nat k + rem /\ 0 <= rem < 2 ^ Z.of_nat k /\
    0 <= shr_m mrs /\
    match shr_r mrs, shr_s mrs with
    | false, false => rem = 0
    | false, true => 0 < 2 * rem < 2 ^ Z.of_nat k
    | true, false => 2 * rem = 2 ^ Z.of_nat k
    | true, true => 2 ^ Z.of_nat k < 2 * rem
    end.

(** Rounding a positive integer [D], counted in units of [2^-1074], by
    the book: drop [nshift D] bits, round the rest to nearest even, and
    renormalise when the mantissa reaches [2^53]. *)
Definition nshift (D : Z) : Z := Z.max (Zdigits2 D - 53) 0.

Definition rne (D n : Z) : Z :=
  let P := 2 ^ n in
  let M := D / P in
  let rem := D mod P in
  if 2 * rem <? P then M
  else if 2 * rem =? P then (if Z.even M then M else M + 1)
  else M + 1.

Definition round_key (D : Z) : Z * Z :=
  let n := nshift D in
  let m1 := rne D n in
  if m1 =? 2 ^ 53 then (2 ^ 52, -1074 + n + 1) else (m1, -1074 + n).

Definition of_key (s : bool) (k : Z * Z) : spec_float :=
  if snd k <=? 971 then S754_finite s (Z.to_pos (fst k)) (snd k)
  else S754_infinity s.

(** Rounding the integer [D], in units of [2^-1074]. *)
Definition round_units (D : Z) : spec_float :=
  binary_normalize prec emax D (-1074) false.

(** The value of a finite number or zero, in units of [2^-1074]. *)
Definition units (u : spec_float) : Z :=
  match u with
  | S754_finite s m e => cond_Zopp s (Zpos m * 2 ^ (e + 1074))
  | _ => 0
  end.

(** The binade of the finite number [m * 2^e]: the [k] with
    [2^(k-1) <= m * 2^e < 2^k]. *)
Definition binade (m : positive) (e : Z) : Z := Zpos (digits2_pos m) + e.

(** A finite number, not zero, of sign [s] and of a binade from [lo] to
    [hi]. *)
Definition SFwithin (s : bool) (lo hi : Z) (u : spec_float) : Prop :=
  match u with
  | S754_finite s' m e => s' = s /\ lo <= binade m e <= hi
  | _ => False
  end.

#[local] Close Scope Z_scope.

(** A [norm] that counts its calls in the state and returns the Euclidean
    norm, and one whose value drifts with the number of calls made. *)
Definition counting_norm (v : list float) (calls : nat) : float * nat :=
  (vectorNorm v, S calls).

Definition drifting_norm (v : list float) (calls : nat) : float * nat :=
  (if (calls =? 0)%nat then vectorNorm v else 0, S calls).

(** A [norm] that appends its argument to a log of the calls made. *)
Definition logging_norm (f : list float -> float) (v : list float)
    (log : list (list float)) : float * list (list float) :=
  (f v, log ++ [v]).

(** The two arguments that the arrow function of lines 7-11 passes to
    [norm] for one position. *)
Definition legs (ecefRx ecefTx pos : Ecef) : list (list float) :=
  [[x ecefRx - x pos; y ecefRx - y pos; z ecefRx - z pos];
   [x ecefTx - x pos; y ecefTx - y pos; z ecefTx - z pos]].

(** ** Points for the concrete runs *)

(** Both stations at the origin and a target on the x axis. *)
Definition origin : Ecef := mkEcef 0 0 0.
Definition near : Ecef := mkEcef 1 0 0.
Definition far : Ecef := mkEcef 2 0 0.

(** ** The rest of analyze_discrepancy.js: stations and the final call *)

Module Analysis.
Section Run.

Variable norm : list float -> float.
Variable lla2ecef : float -> float -> float -> Ecef.
Variable Math_cos : float -> float.

(** Lines 26-27. *)
Definition rxLat : float := -35.0.
Definition rxLon : float := 138.7.
Definition rxAlt : float := 50.
Definition txLat : float := -35.0.
Definition txLon : float := 138.6.
Definition txAlt : float := 50.

(** Lines 30-32. *)
Definition ecefRx : Ecef := lla2ecef rxLat rxLon rxAlt.
Definition ecefTx : Ecef := lla2ecef txLat txLon txAlt.
Definition dRxTx : float :=
  norm [x ecefRx - x ecefTx; y ecefRx - y ecefTx; z ecefRx - z ecefTx].

(** Line 51, [positions[positions.length - 1]]; [None] is [undefined]. *)
Definition aircraft_ecef (h : Arrays) : option Ecef :=
  nth_error (positions h) (length (positions h) - 1).

(** Line 56. *)
Definition doppler_pos (h : Arrays) : option float :=
  calculatePositionBasedDoppler norm (positions h) (timestamps h)
    ecefRx ecefTx dRxTx Script.fc.

(** The loop followed by the two reads of its arrays; the outer [None] is
    a loop that ran out of fuel. *)
Definition run (fuel : nat) : option (option Ecef * option float) :=
  match Script.trajectory lla2ecef Math_cos fuel with
  | Some h => Some (aircraft_ecef h, doppler_pos h)
  | None => None
  end.

End Run.
End Analysis.

(** ** manualVerification: the comparison with the API, lines 76-99 *)

Module Manual.
Import String.

(** The three outcomes of lines 92-98. *)
Inductive verdict : Set := PASS | WARN | FAIL.

(** Line 83. *)
Definition diff (api_doppler doppler_manual : float) : float :=
  abs (api_doppler - doppler_manual).

(** Line 84. *)
Definition percent_diff (api_doppler doppler_manual : float) : float :=
  (diff api_doppler doppler_manual / abs doppler_manual) * 100.

(** Lines 92-98. *)
Definition classify (percent_diff : float) : verdict :=
  if percent_diff <? 1 then PASS
  else if percent_diff <? 5 then WARN
  else FAIL.

Definition velocity : string := "velocity"%string.

(** Lines 82-99: the comparison is made when the manual value is not
    [null] and the API used the velocity method; [api_doppler] is the
    number [parseFloat] returned on line 76.  [None] is no comparison. *)
Definition comparison (doppler_manual : option float) (api_doppler : float)
    (api_method : string) : option verdict :=
  match doppler_manual with
  | Some manual =>
      if (api_method =? velocity)%string
      then Some (classify (percent_diff api_doppler manual))
      else None
  | None => None
  end.

End Manual.

(** * Proofs *)

(** ** Facts about binary64 arithmetic *)

(** Addition is commutative, bit for bit. *)
Lemma SFadd_comm (a b : spec_float) : SF64add a b = SF64add b a.
Proof.
  unfold SF64add, SFadd.
  destruct a as [[]|[]| |sa ma ea], b as [[]|[]| |sb mb eb]; try reflexivity.
  cbv zeta. rewrite (Z.min_comm eb ea). f_equal. apply Z.add_comm.
Qed.

Lemma float_add_comm (a b : float) : a + b = b + a.
Proof. apply Prim2SF_inj. rewrite !add_spec. apply SFadd_comm. Qed.

(** A number minus itself is [+0], or NaN for an infinity or NaN. *)
Lemma SFsub_diag (a : spec_float) :
  SF64sub a a = S754_zero false \/ SF64sub a a = S754_nan.
Proof.
  unfold SF64sub, SFsub.
  destruct a as [[]|[]| |sa ma ea]; auto.
  cbv zeta. rewrite Z.sub_diag. left. reflexivity.
Qed.

Lemma SFopp_nonfinite a : SFnonfinite a -> SFnonfinite (SFopp a).
Proof. destruct a; simpl; auto. Qed.

Lemma SFdiv_nonfinite_l a b : SFnonfinite a -> SFnonfinite (SF64div a b).
Proof.
  destruct a as [[]|[]| |sa ma ea]; simpl; try contradiction; intros _;
    destruct b as [[]|[]| |sb mb eb]; exact I.
Qed.

Lemma is_finite_false (v : float) :
  SFnonfinite (Prim2SF v) -> is_finite v = false.
Proof.
  unfold is_finite, is_nan, is_infinity.
  rewrite !eqb_spec, abs_spec.
  change (Prim2SF infinity) with (S754_infinity false).
  destruct (Prim2SF v) as [[]|[]| |s m e]; simpl; try contradiction; reflexivity.
Qed.

(** Rounding keeps the sign it is given, for every format. *)
Section Rounding.
Variables prec emax : Z.

Lemma shr_1_nonneg mrs : (0 <= shr_m mrs)%Z -> (0 <= shr_m (shr_1 mrs))%Z.
Proof.
  destruct mrs as [m r s]; simpl.
  destruct m as [|[p|p|]|[p|p|]]; simpl; lia.
Qed.

Lemma iter_pos_shr_1_nonneg p : forall mrs,
  (0 <= shr_m mrs)%Z -> (0 <= shr_m (iter_pos shr_1 p mrs))%Z.
Proof.
  induction p as [p IH|p IH|]; intros mrs H; simpl.
  - apply IH, IH, shr_1_nonneg, H.
  - apply IH, IH, H.
  - apply shr_1_nonneg, H.
Qed.

Lemma shr_fexp_nonneg m e l :
  (0 <= m)%Z -> (0 <= shr_m (fst (shr_fexp prec emax m e l)))%Z.
Proof.
  intros H. unfold shr_fexp, shr.
  assert (H0 : (0 <= shr_m (shr_record_of_loc m l))%Z)
    by (destruct l as [|[]]; exact H).
  destruct (fexp prec emax (Zdigits2 m + e) - e)%Z; simpl; auto.
  apply iter_pos_shr_1_nonneg, H0.
Qed.

Lemma round_nearest_even_nonneg m l :
  (0 <= m)%Z -> (0 <= round_nearest_even m l)%Z.
Proof.
  intros H. destruct l as [|[]]; simpl; try lia.
  destruct (Z.even m); lia.
Qed.

Lemma binary_round_aux_signed sx m e l :
  (0 <= m)%Z -> SFsigned sx (binary_round_aux prec emax sx m e l).
Proof.
  intros H. unfold binary_round_aux.
  pose proof (shr_fexp_nonneg m e l H) as H1.
  destruct (shr_fexp prec emax m e l) as [mrs' e']. simpl in H1.
  pose proof (shr_fexp_nonneg _ e' loc_Exact
                (round_nearest_even_nonneg _ (loc_of_shr_record mrs') H1)) as H2.
  destruct (shr_fexp prec emax _ e' loc_Exact) as [mrs'' e'']. simpl in H2.
  destruct (shr_m mrs'') as [|p|p]; simpl; try reflexivity; try lia.
  destruct (e'' <=? emax - prec)%Z; reflexivity.
Qed.

Lemma binary_round_signed sx m e :
  SFsigned sx (binary_round prec emax sx m e).
Proof.
  unfold binary_round.
  destruct (shl_align m e _) as [mz ez].
  apply binary_round_aux_signed. lia.
Qed.

Lemma SFdiv_core_nonneg m1 e1 m2 e2 :
  (0 <= fst (fst (SFdiv_core_binary prec emax (Zpos m1) e1 (Zpos m2) e2)))%Z.
Proof.
  unfold SFdiv_core_binary. cbv zeta.
  set (s := (_ - _ - _)%Z).
  set (m' := match s with Zpos _ => _ | Z0 => _ | Zneg _ => _ end).
  assert (Hm : (0 <= m')%Z).
  { subst m'. destruct s; try lia. apply Z.shiftl_nonneg. lia. }
  pose proof (Z_div_mod m' (Zpos m2) eq_refl) as Hd.
  destruct (Z.div_eucl m' (Zpos m2)) as [q r]. simpl.
  destruct Hd as [Hd Hr]. nia.
Qed.

(** A finite dividend never gives NaN. *)
Lemma SFdiv_finite_signed s m e b v :
  SFsigned b v -> SFsigned (xorb s b) (SFdiv prec emax (S754_finite s m e) v).
Proof.
  destruct v as [sv|sv| |sv mv ev]; simpl; try contradiction; intros <-;
    try reflexivity.
  pose proof (SFdiv_core_nonneg m e mv ev) as H.
  destruct (SFdiv_core_binary prec emax (Zpos m) e (Zpos mv) ev) as [[mz ez] lz].
  apply binary_round_aux_signed. exact H.
Qed.

End Rounding.

(** The sign of an exact difference, from the comparison of its operands. *)
Section Exact.
Variables prec emax : Z.

Lemma digits2_pos_bounds m :
  (2 ^ (Zpos (digits2_pos m) - 1) <= Zpos m < 2 ^ Zpos (digits2_pos m))%Z.
Proof.
  induction m as [p IH|p IH|]; simpl digits2_pos.
  - rewrite Pos2Z.inj_succ.
    replace (Z.succ (Zpos (digits2_pos p)) - 1)%Z
      with (Z.succ (Zpos (digits2_pos p) - 1))%Z by lia.
    rewrite !Z.pow_succ_r by lia. lia.
  - rewrite Pos2Z.inj_succ.
    replace (Z.succ (Zpos (digits2_pos p)) - 1)%Z
      with (Z.succ (Zpos (digits2_pos p) - 1))%Z by lia.
    rewrite !Z.pow_succ_r by lia. lia.
  - simpl. lia.
Qed.

Lemma shl_align_value m e ez :
  (ez <= e)%Z -> Zpos (fst (shl_align m e ez)) = (Zpos m * 2 ^ (e - ez))%Z.
Proof.
  intros H. unfold shl_align.
  destruct (ez - e)%Z as [|d|d] eqn:E; simpl fst.
  - replace (e - ez)%Z with 0%Z by lia. simpl. lia.
  - lia.
  - replace (e - ez)%Z with (Zpos d) by lia.
    rewrite <- Z.shiftl_mul_pow2 by lia. simpl Z.shiftl.
    apply (Pos.iter_swap_gen _ _ Zpos xO (Z.mul 2)). reflexivity.
Qed.

(** The mantissas of two canonical numbers, brought to the smaller
    exponent, compare as the exponents do. *)
Lemma bounded_exponent_lt m1 e1 m2 e2 :
  bounded prec emax m1 e1 = true -> bounded prec emax m2 e2 = true ->
  (e1 < e2)%Z -> (Zpos m1 < Zpos m2 * 2 ^ (e2 - e1))%Z.
Proof.
  unfold bounded, canonical_mantissa, fexp.
  intros H1 H2 Hlt.
  apply andb_true_iff in H1 as [H1 _]. apply andb_true_iff in H2 as [H2 _].
  apply Z.eqb_eq in H1, H2.
  pose proof (digits2_pos_bounds m1) as [_ B1].
  pose proof (digits2_pos_bounds m2) as [B2 _].
  set (d1 := Zpos (digits2_pos m1)) in *.
  set (d2 := Zpos (digits2_pos m2)) in *.
  assert (Hd2 : d2 = prec) by lia.
  assert (Hd1 : (d1 <= prec)%Z) by lia.
  assert (Hp : (2 ^ d1 <= 2 ^ prec)%Z) by (apply Z.pow_le_mono_r; lia).
  assert (Hq : (2 ^ 1 <= 2 ^ (e2 - e1))%Z) by (apply Z.pow_le_mono_r; lia).
  assert (Hs : (2 ^ prec = 2 ^ (d2 - 1) * 2 ^ 1)%Z).
  { rewrite <- Z.pow_add_r by (subst d1 d2; lia). f_equal. lia. }
  assert (0 < 2 ^ (d2 - 1))%Z by (apply Z.pow_pos_nonneg; subst d2; lia).
  nia.
Qed.

Lemma SFcompare_Lt_aligned s1 m1 e1 s2 m2 e2 :
  bounded prec emax m1 e1 = true -> bounded prec emax m2 e2 = true ->
  SFcompare (S754_finite s1 m1 e1) (S754_finite s2 m2 e2) = Some Lt ->
  (aligned s1 m1 e1 (Z.min e1 e2) < aligned s2 m2 e2 (Z.min e1 e2))%Z.
Proof.
  intros H1 H2. unfold aligned.
  rewrite !shl_align_value by lia.
  unfold SFcompare.
  assert (P1 : (0 < 2 ^ (e1 - Z.min e1 e2))%Z) by (apply Z.pow_pos_nonneg; lia).
  assert (P2 : (0 < 2 ^ (e2 - Z.min e1 e2))%Z) by (apply Z.pow_pos_nonneg; lia).
  destruct s1, s2; unfold cond_Zopp; try discriminate.
  - destruct (Z.compare_spec e1 e2) as [E|E|E]; try discriminate.
    + subst e2. rewrite Z.min_id, Z.sub_diag, !Z.pow_0_r, !Z.mul_1_r.
      intros C. injection C as C. apply CompOpp_iff in C. simpl in C.
      change (Pos.compare m1 m2 = Gt) in C. rewrite Pos.compare_gt_iff in C. lia.
    + intros _. rewrite Z.min_r by lia. rewrite Z.sub_diag, Z.pow_0_r, Z.mul_1_r.
      pose proof (bounded_exponent_lt _ _ _ _ H2 H1 E). lia.
  - intros _. nia.
  - destruct (Z.compare_spec e1 e2) as [E|E|E]; try discriminate.
    + subst e2. rewrite Z.min_id, Z.sub_diag, !Z.pow_0_r, !Z.mul_1_r.
      intros C. injection C as C.
      change (Pos.compare m1 m2 = Lt) in C. rewrite Pos.compare_lt_iff in C. lia.
    + intros _. rewrite Z.min_l by lia. rewrite Z.sub_diag, Z.pow_0_r, Z.mul_1_r.
      pose proof (bounded_exponent_lt _ _ _ _ H1 H2 E). lia.
Qed.

Lemma binary_normalize_pos m e :
  (0 < m)%Z -> SFsigned false (binary_normalize prec emax m e false).
Proof.
  destruct m as [|p|p]; intros H; try lia. apply binary_round_signed.
Qed.

Lemma binary_normalize_neg m e :
  (m < 0)%Z -> SFsigned true (binary_normalize prec emax m e false).
Proof.
  destruct m as [|p|p]; intros H; try lia. apply binary_round_signed.
Qed.

(** Subtracting the smaller of two numbers from the larger gives a
    number without sign bit, the other way round one with it. *)
Lemma SFsub_of_lt a b :
  SpecFloat.valid_binary prec emax a = true -> SpecFloat.valid_binary prec emax b = true ->
  SFltb a b = true ->
  SFsigned false (SFsub prec emax b a) /\ SFsigned true (SFsub prec emax a b).
Proof.
  unfold SFltb. intros Va Vb.
  destruct (SFcompare a b) as [[]|] eqn:C; try discriminate. intros _.
  destruct a as [sa|sa| |sa ma ea], b as [sb|sb| |sb mb eb];
    try discriminate;
    try (destruct sa, sb; simpl in *; try discriminate; split; reflexivity);
    try (destruct sa; simpl in *; try discriminate; split; reflexivity);
    try (destruct sb; simpl in *; try discriminate; split; reflexivity).
  pose proof (SFcompare_Lt_aligned _ _ _ _ _ _ Va Vb C) as H.
  unfold aligned in H.
  unfold SFsub. cbv zeta. rewrite (Z.min_comm eb ea).
  set (A := cond_Zopp sa _) in *. set (B := cond_Zopp sb _) in *.
  split.
  - apply binary_normalize_pos. lia.
  - apply binary_normalize_neg. lia.
Qed.
End Exact.

(** ** The modelled norm *)

Lemma SFadd_zero_l (t : spec_float) :
  SFsigned false t \/ t = S754_nan -> SF64add (S754_zero false) t = t.
Proof.
  intros [H | ->]; [|reflexivity].
  destruct t as [s|s| |s m e]; simpl in H; try contradiction; subst; reflexivity.
Qed.

Lemma SFmul_square (a : spec_float) :
  SFsigned false (SF64mul a a) \/ SF64mul a a = S754_nan.
Proof.
  destruct a as [[]|[]| |s m e]; simpl; auto.
  left. replace (xorb s s) with false by (destruct s; reflexivity).
  apply binary_round_aux_signed. lia.
Qed.

(** A square is never [-0], so that adding it to [0] changes nothing. *)
Lemma add_zero_square (a : float) : 0 + a * a = a * a.
Proof.
  apply Prim2SF_inj. rewrite add_spec, mul_spec.
  apply SFadd_zero_l, SFmul_square.
Qed.

(** On three components the modelled norm is the formula of section 4.1. *)
Lemma vectorNorm_3 (a b c : float) :
  vectorNorm [a; b; c] = sqrt (a * a + b * b + c * c).
Proof. unfold vectorNorm. simpl. rewrite add_zero_square. reflexivity. Qed.

(** With that norm the range of two points is their Euclidean distance. *)
Lemma range_euclidean (a b : Ecef) :
  range vectorNorm a b
  = sqrt ((x a - x b) * (x a - x b) + (y a - y b) * (y a - y b)
          + (z a - z b) * (z a - z b)).
Proof. apply vectorNorm_3. Qed.

(** ** Rounding to nearest is monotone

    [SFsub] aligns the two mantissas at the smaller exponent, subtracts
    them as integers and rounds the difference.  The proof that this is
    monotone in the first operand goes in four steps: a closed form for
    the right shifts of the rounding ([shifted]); rounding depends on the
    value of [m * 2^e] only, so that every difference can be counted in
    units of [2^-1074] ([binary_round_scale]); at that exponent rounding
    is the function [round_key], which is monotone ([round_key_mono]);
    and the order of two numbers is the order of their values in units
    ([units_lt]). *)

Section RoundToNearest.

#[local] Open Scope Z_scope.

Lemma iter_pos_nat {A : Type} (f : A -> A) (p : positive) (a : A) :
  iter_pos f p a = Nat.iter (Pos.to_nat p) f a.
Proof.
  revert a. induction p as [p IH|p IH|]; intros a; simpl iter_pos.
  - rewrite !IH, Pos2Nat.inj_xI.
    replace (S (2 * Pos.to_nat p))%nat with (Pos.to_nat p + (Pos.to_nat p + 1))%nat by lia.
    rewrite !Nat.iter_add. reflexivity.
  - rewrite !IH, Pos2Nat.inj_xO.
    replace (2 * Pos.to_nat p)%nat with (Pos.to_nat p + Pos.to_nat p)%nat by lia.
    rewrite Nat.iter_add. reflexivity.
  - reflexivity.
Qed.

Lemma shifted_0 D : 0 <= D -> shifted D 0 (Build_shr_record D false false).
Proof. intros H. exists 0. cbn [shr_m shr_r shr_s Z.of_nat]. lia. Qed.

Lemma shifted_S D k mrs : shifted D k mrs -> shifted D (S k) (shr_1 mrs).
Proof.
  intros (rem & HD & Hrem & Hm & Hloc). unfold shifted.
  rewrite Nat2Z.inj_succ, Z.pow_succ_r by lia.
  assert (HP : 0 < 2 ^ Z.of_nat k) by (apply Z.pow_pos_nonneg; lia).
  set (P := 2 ^ Z.of_nat k) in *.
  destruct mrs as [m r s]. cbn [shr_m shr_r shr_s] in *.
  destruct m as [|[p|p|]|p]; try lia; unfold shr_1; cbn [shr_m shr_r shr_s].
  - exists rem. destruct r, s; cbn [orb]; lia.
  - exists (P + rem). destruct r, s; cbn [orb]; lia.
  - exists rem. destruct r, s; cbn [orb]; lia.
  - exists (P + rem). destruct r, s; cbn [orb]; lia.
Qed.

Lemma shifted_iter D k : 0 <= D ->
  shifted D k (Nat.iter k shr_1 (Build_shr_record D false false)).
Proof.
  intros H. induction k as [|k IH]; [apply shifted_0, H|].
  simpl. apply shifted_S, IH.
Qed.

(** Shifting out the zeros that a multiplication by [2^k] appended. *)
Lemma shift_out_zeros (m : Z) (k : nat) :
  Nat.iter k shr_1 (Build_shr_record (m * 2 ^ Z.of_nat k) false false)
  = Build_shr_record m false false.
Proof.
  revert m. induction k as [|k IH]; intros m.
  - simpl. f_equal. lia.
  - rewrite Nat.iter_succ_r.
    rewrite Nat2Z.inj_succ, Z.pow_succ_r by lia.
    replace (m * (2 * 2 ^ Z.of_nat k)) with (2 * (m * 2 ^ Z.of_nat k)) by lia.
    set (q := m * 2 ^ Z.of_nat k).
    assert (E : shr_1 (Build_shr_record (2 * q) false false)
                = Build_shr_record q false false).
    { destruct q as [|q|q]; reflexivity. }
    rewrite E. apply IH.
Qed.

Lemma fexp64 (e : Z) : fexp prec emax e = Z.max (e - 53) (-1074).
Proof. reflexivity. Qed.

Lemma digits_unique (p : positive) (d : Z) :
  2 ^ (d - 1) <= Zpos p < 2 ^ d -> Zpos (digits2_pos p) = d.
Proof.
  intros [L U]. pose proof (digits2_pos_bounds p) as [L' U'].
  set (d' := Zpos (digits2_pos p)) in *.
  assert (0 < d).
  { destruct (Z.lt_ge_cases 0 d) as [|G]; [assumption|].
    rewrite (Z.pow_neg_r 2 (d - 1)) in L by lia.
    destruct (Z.eq_dec d 0) as [->|]; [simpl in U; lia|].
    rewrite (Z.pow_neg_r 2 d) in U by lia. lia. }
  destruct (Z.lt_trichotomy d' d) as [Hlt|[Heq|Hgt]]; [|assumption|].
  - assert (2 ^ d' <= 2 ^ (d - 1)) by (apply Z.pow_le_mono_r; lia). lia.
  - assert (2 ^ d <= 2 ^ (d' - 1)) by (apply Z.pow_le_mono_r; lia). lia.
Qed.

Lemma digits_mul_pow2 (p q : positive) (k : Z) :
  0 <= k -> Zpos q = Zpos p * 2 ^ k ->
  Zpos (digits2_pos q) = Zpos (digits2_pos p) + k.
Proof.
  intros Hk E. apply digits_unique.
  pose proof (digits2_pos_bounds p) as [L U].
  set (d := Zpos (digits2_pos p)) in *.
  assert (0 < 2 ^ k) by (apply Z.pow_pos_nonneg; lia).
  replace (d + k - 1) with ((d - 1) + k) by lia.
  rewrite !Z.pow_add_r by (subst d; lia). nia.
Qed.

Lemma shr_nat (mrs : shr_record) (e n : Z) :
  shr mrs e n = (Nat.iter (Z.to_nat n) shr_1 mrs, e + Z.max n 0).
Proof.
  unfold shr. destruct n as [|p|p].
  - simpl. f_equal; lia.
  - rewrite iter_pos_nat. f_equal; lia.
  - simpl. f_equal; lia.
Qed.

Lemma shl_align_spec (m : positive) (e e' : Z) :
  exists m', shl_align m e e' = (m', Z.min e e')
             /\ Zpos m' = Zpos m * 2 ^ (e - Z.min e e').
Proof.
  unfold shl_align. destruct (e' - e) as [|d|d] eqn:E.
  - exists m. rewrite Z.min_l by lia. rewrite Z.sub_diag. split; [reflexivity|]. simpl. lia.
  - exists m. rewrite Z.min_l by lia. rewrite Z.sub_diag. split; [reflexivity|]. simpl. lia.
  - exists (Pos.iter xO m d). rewrite Z.min_r by lia. split; [reflexivity|].
    replace (e - e') with (Zpos d) by lia.
    rewrite <- Z.shiftl_mul_pow2 by lia. simpl Z.shiftl.
    apply (Pos.iter_swap_gen _ _ Zpos xO (Z.mul 2)). reflexivity.
Qed.

(** Rounding reads the value only: a mantissa that carries [eL + 1074]
    more zeros at the smallest exponent rounds to the same number. *)
Lemma binary_round_aux_scale (s : bool) (mL m' : positive) (eL : Z) :
  -1074 <= eL -> eL <= fexp prec emax (Zpos (digits2_pos mL) + eL) ->
  Zpos m' = Zpos mL * 2 ^ (eL + 1074) ->
  binary_round_aux prec emax s (Zpos mL) eL loc_Exact
  = binary_round_aux prec emax s (Zpos m') (-1074) loc_Exact.
Proof.
  intros He Hf Hm. unfold binary_round_aux.
  assert (E : shr_fexp prec emax (Zpos mL) eL loc_Exact
              = shr_fexp prec emax (Zpos m') (-1074) loc_Exact).
  { unfold shr_fexp. rewrite !shr_nat. simpl shr_record_of_loc.
    simpl Zdigits2.
    rewrite (digits_mul_pow2 mL m' (eL + 1074)) by (lia || assumption).
    replace (Zpos (digits2_pos mL) + (eL + 1074) + -1074)
      with (Zpos (digits2_pos mL) + eL) by lia.
    set (E := fexp prec emax (Zpos (digits2_pos mL) + eL)) in *.
    assert (HE : -1074 <= E) by (subst E; rewrite fexp64; lia).
    f_equal; [|lia].
    replace (Z.to_nat (E - -1074)) with (Z.to_nat (E - eL) + Z.to_nat (eL + 1074))%nat by lia.
    rewrite Nat.iter_add, Hm.
    rewrite <- (Z2Nat.id (eL + 1074)) at 2 by lia.
    rewrite shift_out_zeros. reflexivity. }
  rewrite E. reflexivity.
Qed.

Lemma binary_round_scale (s : bool) (m m' : positive) (e : Z) :
  -1074 <= e -> Zpos m' = Zpos m * 2 ^ (e + 1074) ->
  binary_round prec emax s m e = binary_round prec emax s m' (-1074).
Proof.
  intros He Hm. unfold binary_round.
  set (d := Zpos (digits2_pos m)).
  destruct (shl_align_spec m e (fexp prec emax (d + e))) as (mL & -> & HL).
  assert (Hd : Zpos (digits2_pos m') = d + (e + 1074))
    by (apply digits_mul_pow2; [lia|exact Hm]).
  rewrite Hd.
  replace (d + (e + 1074) + -1074) with (d + e) by lia.
  assert (HE : -1074 <= fexp prec emax (d + e)) by (rewrite fexp64; lia).
  destruct (shl_align_spec m' (-1074) (fexp prec emax (d + e))) as (mR & -> & HR).
  rewrite (Z.min_l (-1074)) in * by lia.
  rewrite Z.sub_diag, Z.pow_0_r, Z.mul_1_r in HR.
  injection HR as ->.
  set (eL := Z.min e (fexp prec emax (d + e))) in *.
  apply binary_round_aux_scale.
  - subst eL. lia.
  - rewrite (digits_mul_pow2 m mL (e - eL)) by (subst eL; lia || assumption).
    fold d. replace (d + (e - eL) + eL) with (d + e) by lia. subst eL. lia.
  - rewrite Hm, HL. rewrite <- Z.mul_assoc, <- Z.pow_add_r by (subst eL; lia).
    do 2 f_equal. lia.
Qed.

Lemma rne_0 (D : Z) : rne D 0 = D.
Proof.
  unfold rne. cbv zeta. rewrite Z.pow_0_r, Z.mod_1_r, Z.div_1_r. reflexivity.
Qed.

Lemma rne_bounds (D n : Z) :
  0 <= n -> D / 2 ^ n <= rne D n <= D / 2 ^ n + 1.
Proof.
  intros Hn. unfold rne. cbv zeta.
  destruct (_ <? _); [lia|]. destruct (_ =? _); [|lia].
  destruct (Z.even _); lia.
Qed.

(** The round and sticky bits select the nearest-even neighbour. *)
Lemma rne_shifted (D : Z) (k : nat) (mrs : shr_record) :
  shifted D k mrs ->
  round_nearest_even (shr_m mrs) (loc_of_shr_record mrs) = rne D (Z.of_nat k).
Proof.
  intros (rem & HD & Hrem & Hm & Hloc).
  assert (HP : 0 < 2 ^ Z.of_nat k) by (apply Z.pow_pos_nonneg; lia).
  unfold rne. cbv zeta.
  set (P := 2 ^ Z.of_nat k) in *.
  assert (Hq : D / P = shr_m mrs).
  { symmetry. apply (Z.div_unique_pos D P (shr_m mrs) rem); lia. }
  assert (Hr : D mod P = rem).
  { symmetry. apply (Z.mod_unique_pos D P (shr_m mrs) rem); lia. }
  rewrite Hq, Hr.
  destruct mrs as [m r s]. cbn [shr_m shr_r shr_s loc_of_shr_record] in *.
  destruct r, s; cbn [round_nearest_even].
  - replace (2 * rem <? P) with false by (symmetry; apply Z.ltb_ge; lia).
    replace (2 * rem =? P) with false by (symmetry; apply Z.eqb_neq; lia).
    reflexivity.
  - replace (2 * rem <? P) with false by (symmetry; apply Z.ltb_ge; lia).
    replace (2 * rem =? P) with true by (symmetry; apply Z.eqb_eq; lia).
    reflexivity.
  - replace (2 * rem <? P) with true by (symmetry; apply Z.ltb_lt; lia).
    reflexivity.
  - replace (2 * rem <? P) with true by (symmetry; apply Z.ltb_lt; lia).
    reflexivity.
Qed.

(** After a shift the mantissa has exactly 53 bits. *)
Lemma mantissa_after_shift (p : positive) :
  0 < nshift (Zpos p) ->
  2 ^ 52 <= Zpos p / 2 ^ nshift (Zpos p) < 2 ^ 53.
Proof.
  unfold nshift. simpl Zdigits2.
  pose proof (digits2_pos_bounds p) as [L U].
  set (d := Zpos (digits2_pos p)) in *.
  intros Hn. rewrite Z.max_l in * by lia.
  assert (HP : 0 < 2 ^ (d - 53)) by (apply Z.pow_pos_nonneg; lia).
  assert (E1 : 2 ^ (d - 1) = 2 ^ 52 * 2 ^ (d - 53)).
  { rewrite <- Z.pow_add_r by lia. f_equal. lia. }
  assert (E2 : 2 ^ d = 2 ^ 53 * 2 ^ (d - 53)).
  { rewrite <- Z.pow_add_r by lia. f_equal. lia. }
  split.
  - apply Z.div_le_lower_bound; lia.
  - apply Z.div_lt_upper_bound; lia.
Qed.

Lemma round_key_pos (p : positive) : 0 < fst (round_key (Zpos p)).
Proof.
  unfold round_key. cbv zeta.
  destruct (_ =? _) eqn:E; [simpl; lia|]. cbn [fst].
  destruct (Z.eq_dec (nshift (Zpos p)) 0) as [E0 | E0].
  - rewrite E0, rne_0. lia.
  - assert (Hn : 0 < nshift (Zpos p)) by (unfold nshift in *; lia).
    pose proof (mantissa_after_shift p Hn).
    pose proof (rne_bounds (Zpos p) (nshift (Zpos p))). lia.
Qed.

(** At the smallest exponent, [binary_round] is [round_key]. *)
Lemma binary_round_emin (s : bool) (p : positive) :
  binary_round prec emax s p (-1074) = of_key s (round_key (Zpos p)).
Proof.
  unfold binary_round.
  set (d := Zpos (digits2_pos p)).
  assert (HE : -1074 <= fexp prec emax (d + -1074)) by (rewrite fexp64; lia).
  destruct (shl_align_spec p (-1074) (fexp prec emax (d + -1074))) as (mR & -> & HR).
  rewrite (Z.min_l (-1074)) in * by lia.
  rewrite Z.sub_diag, Z.pow_0_r, Z.mul_1_r in HR. injection HR as ->.
  unfold binary_round_aux. unfold shr_fexp at 1.
  rewrite shr_nat. cbv beta iota. simpl shr_record_of_loc. simpl Zdigits2. fold d.
  assert (En : fexp prec emax (d + -1074) - -1074 = nshift (Zpos p)).
  { rewrite fexp64. unfold nshift. simpl Zdigits2. fold d. lia. }
  rewrite En.
  assert (Hn0 : 0 <= nshift (Zpos p)) by (unfold nshift; lia).
  rewrite Z.max_l by lia.
  pose proof (shifted_iter (Zpos p) (Z.to_nat (nshift (Zpos p))) ltac:(lia)) as Hs.
  apply rne_shifted in Hs. rewrite Z2Nat.id in Hs by lia. rewrite Hs.
  pose proof (round_key_pos p) as Hk.
  unfold round_key in *. cbv zeta in *.
  set (n := nshift (Zpos p)) in *. set (m1 := rne (Zpos p) n) in *.
  assert (Hm1 : 2 ^ 53 < m1 -> False).
  { intros Hgt. destruct (Z.eq_dec n 0) as [E0 | E0].
    - subst m1. rewrite E0, rne_0 in Hgt.
      pose proof (digits2_pos_bounds p) as [_ U]. fold d in U.
      assert (Hd : d <= 53).
      { subst n. unfold nshift in E0. simpl Zdigits2 in E0. fold d in E0. lia. }
      assert (2 ^ d <= 2 ^ 53) by (apply Z.pow_le_mono_r; lia). lia.
    - pose proof (mantissa_after_shift p ltac:(fold n; lia)) as HM. fold n in HM.
      pose proof (rne_bounds (Zpos p) n Hn0) as HB. fold m1 in HB. lia. }
  unfold shr_fexp. rewrite shr_nat. cbv beta iota. simpl shr_record_of_loc.
  destruct (Z.eqb_spec m1 (2 ^ 53)) as [Ec | Ec].
  - rewrite Ec.
    replace (fexp prec emax (Zdigits2 (2 ^ 53) + (-1074 + n)) - (-1074 + n)) with 1
      by (rewrite fexp64; change (Zdigits2 (2 ^ 53)) with 54; lia).
    cbn [Z.to_nat Pos.to_nat Pos.iter_op Nat.iter nat_rect Z.max].
    change (shr_1 {| shr_m := 2 ^ 53; shr_r := false; shr_s := false |})
      with {| shr_m := 2 ^ 52; shr_r := false; shr_s := false |}.
    cbn [shr_m]. unfold of_key. cbn [fst snd].
    change (emax - prec) with 971.
    replace (-1074 + n + Z.max 1 0) with (-1074 + n + 1) by lia.
    change (2 ^ 52) with (Zpos (Z.to_pos (2 ^ 52))) at 1. cbv iota.
    reflexivity.
  - cbn [fst] in Hk.
    destruct m1 as [|q|q] eqn:Eq; try lia.
    assert (Hd : Zdigits2 (Zpos q) <= 53).
    { simpl Zdigits2. pose proof (digits2_pos_bounds q) as [L _].
      destruct (Z.le_gt_cases (Zpos (digits2_pos q)) 53) as [|G]; [assumption|].
      assert (2 ^ 53 <= 2 ^ (Zpos (digits2_pos q) - 1)) by (apply Z.pow_le_mono_r; lia).
      lia. }
    replace (Z.to_nat (fexp prec emax (Zdigits2 (Zpos q) + (-1074 + n)) - (-1074 + n)))
      with 0%nat by (rewrite fexp64; lia).
    replace (Z.max (fexp prec emax (Zdigits2 (Zpos q) + (-1074 + n)) - (-1074 + n)) 0)
      with 0 by (rewrite fexp64; lia).
    cbn [Nat.iter nat_rect shr_m]. unfold of_key. cbn [fst snd Z.to_pos].
    change (emax - prec) with 971. rewrite Z.add_0_r. reflexivity.
Qed.

Lemma nshift_mono (p q : positive) :
  Zpos p <= Zpos q -> nshift (Zpos p) <= nshift (Zpos q).
Proof.
  intros H. unfold nshift. simpl Zdigits2.
  pose proof (digits2_pos_bounds p) as [Lp _].
  pose proof (digits2_pos_bounds q) as [_ Uq].
  set (dp := Zpos (digits2_pos p)) in *. set (dq := Zpos (digits2_pos q)) in *.
  destruct (Z.le_gt_cases dp dq) as [|G]; [lia|].
  assert (2 ^ dq <= 2 ^ (dp - 1)) by (apply Z.pow_le_mono_r; subst dq; lia).
  lia.
Qed.

Lemma rne_mono (D1 D2 n : Z) :
  0 <= n -> 0 <= D1 <= D2 -> rne D1 n <= rne D2 n.
Proof.
  intros Hn HD. unfold rne. cbv zeta.
  assert (HP : 0 < 2 ^ n) by (apply Z.pow_pos_nonneg; lia).
  set (P := 2 ^ n) in *.
  pose proof (Z.div_mod D1 P ltac:(lia)) as E1.
  pose proof (Z.div_mod D2 P ltac:(lia)) as E2.
  pose proof (Z.mod_pos_bound D1 P HP) as B1.
  pose proof (Z.mod_pos_bound D2 P HP) as B2.
  assert (HM : D1 / P <= D2 / P) by (apply Z.div_le_mono; lia).
  set (M1 := D1 / P) in *. set (M2 := D2 / P) in *.
  set (r1 := D1 mod P) in *. set (r2 := D2 mod P) in *.
  destruct (Z.eq_dec M1 M2) as [EM | NM].
  - rewrite <- EM in *. assert (r1 <= r2) by nia.
    destruct (Z.ltb_spec (2 * r1) P), (Z.ltb_spec (2 * r2) P);
      destruct (Z.eqb_spec (2 * r1) P), (Z.eqb_spec (2 * r2) P);
      destruct (Z.even M1); lia.
  - assert (M1 + 1 <= M2) by lia.
    destruct (Z.ltb_spec (2 * r1) P), (Z.ltb_spec (2 * r2) P);
      destruct (Z.eqb_spec (2 * r1) P), (Z.eqb_spec (2 * r2) P);
      destruct (Z.even M1), (Z.even M2); lia.
Qed.

(** The rounded numbers are ordered as the integers they round:
    first by exponent, then by mantissa. *)
Lemma round_key_mono (p q : positive) :
  Zpos p <= Zpos q ->
  snd (round_key (Zpos p)) < snd (round_key (Zpos q))
  \/ (snd (round_key (Zpos p)) = snd (round_key (Zpos q))
      /\ fst (round_key (Zpos p)) <= fst (round_key (Zpos q))).
Proof.
  intros H. pose proof (nshift_mono p q H) as Hn.
  assert (N1 : 0 <= nshift (Zpos p)) by (unfold nshift; lia).
  assert (N2 : 0 <= nshift (Zpos q)) by (unfold nshift; lia).
  pose proof (rne_bounds (Zpos p) (nshift (Zpos p)) N1) as B1.
  pose proof (rne_bounds (Zpos q) (nshift (Zpos q)) N2) as B2.
  assert (A1 : 0 < nshift (Zpos p) -> 2 ^ 52 <= Zpos p / 2 ^ nshift (Zpos p) < 2 ^ 53)
    by apply mantissa_after_shift.
  assert (A2 : 0 < nshift (Zpos q) -> 2 ^ 52 <= Zpos q / 2 ^ nshift (Zpos q) < 2 ^ 53)
    by apply mantissa_after_shift.
  assert (Z1 : nshift (Zpos p) = 0 -> rne (Zpos p) (nshift (Zpos p)) = Zpos p /\ Zpos p < 2 ^ 53).
  { intros E. rewrite E, rne_0. split; [reflexivity|].
    unfold nshift in E. simpl Zdigits2 in E.
    pose proof (digits2_pos_bounds p) as [_ U].
    assert (2 ^ Zpos (digits2_pos p) <= 2 ^ 53) by (apply Z.pow_le_mono_r; lia). lia. }
  assert (Z2 : nshift (Zpos q) = 0 -> rne (Zpos q) (nshift (Zpos q)) = Zpos q)
    by (intros E; rewrite E, rne_0; reflexivity).
  assert (S : nshift (Zpos p) = nshift (Zpos q) ->
              rne (Zpos p) (nshift (Zpos p)) <= rne (Zpos q) (nshift (Zpos q))).
  { intros E. rewrite E. apply rne_mono; lia. }
  unfold round_key. cbv zeta.
  set (n1 := nshift (Zpos p)) in *. set (n2 := nshift (Zpos q)) in *.
  set (m1 := rne (Zpos p) n1) in *. set (m2 := rne (Zpos q) n2) in *.
  set (a1 := Zpos p / 2 ^ n1) in *. set (a2 := Zpos q / 2 ^ n2) in *.
  change (2 ^ 53) with 9007199254740992 in *.
  change (2 ^ 52) with 4503599627370496 in *.
  destruct (Z.eqb_spec m1 9007199254740992), (Z.eqb_spec m2 9007199254740992);
    cbn [fst snd]; lia.
Qed.

Lemma of_key_compare (k1 k2 : Z * Z) :
  0 < fst k1 -> 0 < fst k2 ->
  snd k1 < snd k2 \/ (snd k1 = snd k2 /\ fst k1 <= fst k2) ->
  SFcompare (of_key false k1) (of_key false k2) <> Some Gt.
Proof.
  destruct k1 as [m1 e1], k2 as [m2 e2]. cbn [fst snd]. intros P1 P2 H.
  unfold of_key. cbn [fst snd].
  destruct (Z.leb_spec e1 971), (Z.leb_spec e2 971); cbn [SFcompare];
    try discriminate; try lia.
  destruct H as [H | [<- H]].
  - apply Z.compare_lt_iff in H. rewrite H. discriminate.
  - rewrite Z.compare_refl.
    change (Pos.compare_cont Eq (Z.to_pos m1) (Z.to_pos m2))
      with (Pos.compare (Z.to_pos m1) (Z.to_pos m2)).
    intros C. injection C as C. apply Pos.compare_gt_iff in C. lia.
Qed.

Lemma binary_round_opp (m : positive) (e : Z) :
  binary_round prec emax true m e = SFopp (binary_round prec emax false m e).
Proof.
  unfold binary_round. destruct (shl_align m e _) as [mz ez].
  unfold binary_round_aux.
  destruct (shr_fexp prec emax (Zpos mz) ez loc_Exact) as [mrs' e'].
  destruct (shr_fexp prec emax _ e' loc_Exact) as [mrs'' e''].
  destruct (shr_m mrs''); try reflexivity.
  destruct (e'' <=? emax - prec); reflexivity.
Qed.

Lemma SFcompare_opp (a b : spec_float) :
  SFcompare (SFopp a) (SFopp b) = SFcompare b a.
Proof.
  destruct a as [[]|[]| |[] ma ea], b as [[]|[]| |[] mb eb]; try reflexivity;
    cbn [SFopp negb SFcompare]; rewrite (Z.compare_antisym ea eb);
    destruct (Z.compare ea eb); cbn [CompOpp]; try reflexivity.
  - change (Some (Pos.compare ma mb) = Some (CompOpp (Pos.compare mb ma))).
    rewrite (Pos.compare_antisym mb ma). reflexivity.
  - change (Some (CompOpp (Pos.compare ma mb)) = Some (Pos.compare mb ma)).
    rewrite (Pos.compare_antisym ma mb). reflexivity.
Qed.

Lemma SFcompare_signs (a b : spec_float) :
  SFsigned true a -> SFsigned false b -> SFcompare a b <> Some Gt.
Proof.
  destruct a as [sa|sa| |sa ma ea], b as [sb|sb| |sb mb eb]; simpl;
    try contradiction; intros -> ->; discriminate.
Qed.

Lemma round_units_pos (p : positive) :
  round_units (Zpos p) = of_key false (round_key (Zpos p)).
Proof. apply binary_round_emin. Qed.

Lemma round_units_neg (p : positive) :
  round_units (Zneg p) = SFopp (of_key false (round_key (Zpos p))).
Proof.
  unfold round_units, binary_normalize.
  rewrite binary_round_opp, binary_round_emin. reflexivity.
Qed.

Lemma of_key_signed (s : bool) (k : Z * Z) : SFsigned s (of_key s k).
Proof. unfold of_key. destruct (_ <=? _); reflexivity. Qed.

(** Rounding is monotone. *)
Lemma round_units_mono (D1 D2 : Z) :
  D1 <= D2 -> SFcompare (round_units D1) (round_units D2) <> Some Gt.
Proof.
  intros H.
  destruct D1 as [|p|p], D2 as [|q|q]; try lia;
    rewrite ?round_units_pos, ?round_units_neg.
  - discriminate.
  - unfold of_key. destruct (_ <=? _); discriminate.
  - apply of_key_compare; try apply round_key_pos. apply round_key_mono, H.
  - apply SFcompare_signs; [|reflexivity].
    pose proof (of_key_signed false (round_key (Zpos p))).
    destruct (of_key false _); simpl in *; try contradiction; subst; reflexivity.
  - apply SFcompare_signs; [|apply of_key_signed].
    pose proof (of_key_signed false (round_key (Zpos p))).
    destruct (of_key false _); simpl in *; try contradiction; subst; reflexivity.
  - rewrite SFcompare_opp.
    apply of_key_compare; try apply round_key_pos. apply round_key_mono. lia.
Qed.

Lemma bounded_emin (m : positive) (e : Z) :
  bounded prec emax m e = true -> -1074 <= e.
Proof.
  unfold bounded, canonical_mantissa. intros H.
  apply andb_true_iff in H as [H _]. apply Z.eqb_eq in H.
  rewrite fexp64 in H. lia.
Qed.

(** A canonical mantissa and exponent are left as they are. *)
Lemma binary_round_valid (s : bool) (m : positive) (e : Z) :
  bounded prec emax m e = true ->
  binary_round prec emax s m e = S754_finite s m e.
Proof.
  unfold bounded, canonical_mantissa. intros H.
  apply andb_true_iff in H as [H1 H2]. apply Z.eqb_eq in H1.
  unfold binary_round. rewrite H1.
  unfold shl_align. rewrite Z.sub_diag.
  unfold binary_round_aux, shr_fexp. simpl Zdigits2. rewrite H1.
  rewrite shr_nat, Z.sub_diag. cbv beta iota.
  cbn [Z.to_nat Nat.iter nat_rect shr_record_of_loc shr_m loc_of_shr_record
       round_nearest_even].
  simpl Zdigits2. replace (e + Z.max 0 0) with e by lia. rewrite H1.
  rewrite shr_nat, Z.sub_diag. cbv beta iota.
  cbn [Z.to_nat Nat.iter nat_rect shr_record_of_loc shr_m].
  replace (e + Z.max 0 0) with e by lia. rewrite H2. reflexivity.
Qed.

Lemma binary_normalize_scale (M e : Z) :
  -1074 <= e ->
  binary_normalize prec emax M e false = round_units (M * 2 ^ (e + 1074)).
Proof.
  intros He. unfold round_units.
  assert (HP : 0 < 2 ^ (e + 1074)) by (apply Z.pow_pos_nonneg; lia).
  destruct M as [|m|m].
  - reflexivity.
  - destruct (Zpos m * 2 ^ (e + 1074)) as [|m'|m'] eqn:E; try lia.
    simpl. apply binary_round_scale; [lia|]. symmetry. exact E.
  - destruct (Zneg m * 2 ^ (e + 1074)) as [|m'|m'] eqn:E; try lia.
    simpl. apply binary_round_scale; [lia|]. lia.
Qed.

Lemma cond_Zopp_mul (s : bool) (a c : Z) :
  cond_Zopp s a * c = cond_Zopp s (a * c).
Proof. destruct s; simpl; lia. Qed.

Lemma aligned_units (s : bool) (m : positive) (e ez : Z) :
  -1074 <= ez <= e ->
  aligned s m e ez * 2 ^ (ez + 1074) = units (S754_finite s m e).
Proof.
  intros H. unfold aligned, units.
  rewrite shl_align_value by lia.
  rewrite cond_Zopp_mul, <- Z.mul_assoc, <- Z.pow_add_r by lia.
  do 3 f_equal. lia.
Qed.

(** Subtraction rounds the exact difference of the values. *)
Lemma SFsub_finite_units (sx : bool) (mx : positive) (ex : Z)
    (sb : bool) (mb : positive) (eb : Z) :
  bounded prec emax mx ex = true -> bounded prec emax mb eb = true ->
  SF64sub (S754_finite sx mx ex) (S754_finite sb mb eb)
  = round_units (units (S754_finite sx mx ex) - units (S754_finite sb mb eb)).
Proof.
  intros Hx Hb. apply bounded_emin in Hx, Hb.
  unfold SF64sub, SFsub. cbv zeta.
  rewrite binary_normalize_scale by lia.
  fold (aligned sx mx ex (Z.min ex eb)). fold (aligned sb mb eb (Z.min ex eb)).
  rewrite Z.mul_sub_distr_r, !aligned_units by lia. reflexivity.
Qed.

Lemma SFsub_zero_units (s sb : bool) (mb : positive) (eb : Z) :
  bounded prec emax mb eb = true ->
  SF64sub (S754_zero s) (S754_finite sb mb eb)
  = round_units (units (S754_zero s) - units (S754_finite sb mb eb)).
Proof.
  intros Hb. pose proof (bounded_emin _ _ Hb) as He.
  unfold SF64sub, SFsub.
  rewrite <- (binary_round_valid (negb sb) mb eb Hb).
  assert (HP : 0 < 2 ^ (eb + 1074)) by (apply Z.pow_pos_nonneg; lia).
  unfold units, round_units.
  destruct (Zpos mb * 2 ^ (eb + 1074)) as [|m'|m'] eqn:E; try lia.
  destruct sb; simpl; apply binary_round_scale; auto.
Qed.

(** The comparison of two canonical numbers is that of their values. *)
Lemma units_lt (lo hi : spec_float) :
  SpecFloat.valid_binary prec emax lo = true ->
  SpecFloat.valid_binary prec emax hi = true ->
  (forall s, lo <> S754_infinity s) -> (forall s, hi <> S754_infinity s) ->
  SFcompare lo hi = Some Lt -> units lo < units hi.
Proof.
  intros Vy Vx Iy Ix C.
  destruct lo as [sy|sy| |sy my ey], hi as [sx|sx| |sx mx ex];
    try discriminate; try (exfalso; eapply Iy; reflexivity);
    try (exfalso; eapply Ix; reflexivity).
  - apply bounded_emin in Vx.
    assert (0 < 2 ^ (ex + 1074)) by (apply Z.pow_pos_nonneg; lia).
    destruct sx; try discriminate. cbn [units cond_Zopp]. nia.
  - apply bounded_emin in Vy.
    assert (0 < 2 ^ (ey + 1074)) by (apply Z.pow_pos_nonneg; lia).
    destruct sy; try discriminate. cbn [units cond_Zopp]. nia.
  - pose proof (SFcompare_Lt_aligned prec emax _ _ _ _ _ _ Vy Vx C) as H.
    simpl in Vy, Vx. apply bounded_emin in Vy, Vx.
    assert (HP : 0 < 2 ^ (Z.min ey ex + 1074)) by (apply Z.pow_pos_nonneg; lia).
    rewrite <- (aligned_units sy my ey (Z.min ey ex)) by lia.
    rewrite <- (aligned_units sx mx ex (Z.min ey ex)) by lia.
    nia.
Qed.

(** Subtracting the same number from two numbers keeps their order. *)
Lemma SFsub_mono (lo hi b : spec_float) :
  SpecFloat.valid_binary prec emax lo = true ->
  SpecFloat.valid_binary prec emax hi = true ->
  SpecFloat.valid_binary prec emax b = true ->
  SFcompare lo hi = Some Lt ->
  SFcompare (SF64sub lo b) (SF64sub hi b) <> Some Gt.
Proof.
  intros Vy Vx Vb C.
  destruct b as [sb|sb| |sb mb eb].
  - destruct lo as [sy|sy| |sy my ey], hi as [sx|sx| |sx mx ex];
      try discriminate;
      try (destruct sy, sx, sb; simpl in *; congruence);
      try (destruct sy, sb; simpl in *; congruence);
      try (destruct sx, sb; simpl in *; congruence);
      try (unfold SF64sub, SFsub; rewrite C; discriminate).
  - destruct lo as [sy|sy| |sy my ey], hi as [sx|sx| |sx mx ex];
      try discriminate;
      try (destruct sy, sx, sb; simpl in *; congruence);
      try (destruct sy, sb; simpl in *; congruence);
      try (destruct sx, sb; simpl in *; congruence);
      try (destruct sb; simpl in *; congruence).
  - destruct lo, hi; discriminate.
  - assert (Hfin : forall u, SpecFloat.valid_binary prec emax u = true ->
                    (forall s, u <> S754_infinity s) -> u <> S754_nan ->
                    SF64sub u (S754_finite sb mb eb)
                    = round_units (units u - units (S754_finite sb mb eb))).
    { intros [su|su| |su mu eu] Vu Iu Nu.
      - apply SFsub_zero_units, Vb.
      - exfalso. eapply Iu. reflexivity.
      - congruence.
      - apply SFsub_finite_units; assumption. }
    assert (Ny : lo <> S754_nan) by (intros ->; destruct hi; discriminate).
    assert (Nx : hi <> S754_nan) by (intros ->; destruct lo; discriminate).
    assert (Dy : (exists s, lo = S754_infinity s) \/ forall s, lo <> S754_infinity s)
      by (destruct lo; eauto; right; discriminate).
    assert (Dx : (exists s, hi = S754_infinity s) \/ forall s, hi <> S754_infinity s)
      by (destruct hi; eauto; right; discriminate).
    destruct Dy as [[sy ->] | Iy].
    { destruct sy.
      - unfold SF64sub. cbn [SFsub].
        destruct (SFsub prec emax hi (S754_finite sb mb eb)) as [?|[]| |? ? ?];
          discriminate.
      - destruct hi as [?|[]| |? ? ?]; discriminate. }
    destruct Dx as [[sx ->] | Ix].
    { destruct sx.
      - destruct lo as [?|[]| |? ? ?]; discriminate.
      - unfold SF64sub. cbn [SFsub].
        destruct (SFsub prec emax lo (S754_finite sb mb eb)) as [?|[]| |? ? ?];
          discriminate. }
    rewrite !Hfin by assumption.
    apply round_units_mono.
    assert (units lo < units hi) by (apply units_lt; assumption).
    lia.
Qed.

End RoundToNearest.

(** ** Signs of differences and quotients *)

(** Numbers that compare equal are the same number, zeros apart. *)
Lemma SFcompare_Eq_finite s1 m1 e1 s2 m2 e2 :
  SFcompare (S754_finite s1 m1 e1) (S754_finite s2 m2 e2) = Some Eq ->
  s1 = s2 /\ m1 = m2 /\ e1 = e2.
Proof.
  simpl. destruct s1, s2; try discriminate;
    destruct (Z.compare_spec e1 e2) as [E|E|E]; try discriminate;
    intros C; injection C as C; repeat split; auto.
  - destruct (Pos.compare_cont Eq m1 m2) eqn:K; try discriminate.
    apply Pos.compare_eq, K.
  - apply Pos.compare_eq, C.
Qed.

Lemma SFsub_of_eq (a b : spec_float) :
  SFcompare a b = Some Eq ->
  SFzero_or_nan (SF64sub b a) /\ SFzero_or_nan (SF64sub a b).
Proof.
  intros C.
  destruct a as [sa|sa| |sa ma ea], b as [sb|sb| |sb mb eb]; try discriminate;
    try (destruct sa, sb; simpl in *; try discriminate; split; exact I);
    try (destruct sa; simpl in *; try discriminate; split; exact I);
    try (destruct sb; simpl in *; try discriminate; split; exact I).
  apply SFcompare_Eq_finite in C as (-> & -> & ->).
  unfold SF64sub, SFsub. cbv zeta. rewrite Z.sub_diag. split; exact I.
Qed.

Lemma SFsigned_not_negative (s : spec_float) :
  SFsigned false s -> SFnot_negative s.
Proof. destruct s; simpl; auto. Qed.

Lemma SFsigned_not_positive (s : spec_float) :
  SFsigned true s -> SFnot_positive s.
Proof. destruct s; simpl; auto. Qed.

Lemma SFzero_or_nan_not_negative (s : spec_float) :
  SFzero_or_nan s -> SFnot_negative s.
Proof. destruct s; simpl; auto; contradiction. Qed.

Lemma SFzero_or_nan_not_positive (s : spec_float) :
  SFzero_or_nan s -> SFnot_positive s.
Proof. destruct s; simpl; auto; contradiction. Qed.

(** The difference of two numbers of which the first is not the larger. *)
Lemma SFsub_of_not_gt (v u : spec_float) :
  SpecFloat.valid_binary prec emax v = true ->
  SpecFloat.valid_binary prec emax u = true ->
  SFcompare v u <> Some Gt ->
  SFnot_negative (SF64sub u v) /\ SFnot_positive (SF64sub v u).
Proof.
  intros Vv Vu C.
  destruct (SFcompare v u) as [[]|] eqn:E; try congruence.
  - apply SFsub_of_eq in E as [H1 H2].
    split; [apply SFzero_or_nan_not_negative, H1
           |apply SFzero_or_nan_not_positive, H2].
  - destruct (SFsub_of_lt prec emax v u Vv Vu) as [H1 H2];
      [unfold SFltb; rewrite E; reflexivity|].
    split; [apply SFsigned_not_negative, H1|apply SFsigned_not_positive, H2].
  - assert (N : v = S754_nan \/ u = S754_nan).
    { destruct v as [?|?| |? ? ?], u as [?|?| |? ? ?]; auto; discriminate. }
    destruct N as [-> | ->].
    + split; [destruct u|]; exact I.
    + split; [|destruct v]; exact I.
Qed.

Lemma SFdiv_not_negative (u v : spec_float) :
  SFnot_negative u -> SFsigned false v -> SFnot_negative (SF64div u v).
Proof.
  destruct u as [su|su| |su mu eu], v as [sv|sv| |sv mv ev]; simpl;
    try contradiction; auto; intros -> ->; try reflexivity.
  apply SFsigned_not_negative.
  apply (SFdiv_finite_signed prec emax false mu eu false (S754_finite false mv ev)).
  reflexivity.
Qed.

Lemma SFdiv_not_positive (u v : spec_float) :
  SFnot_positive u -> SFsigned false v -> SFnot_positive (SF64div u v).
Proof.
  destruct u as [su|su| |su mu eu], v as [sv|sv| |sv mv ev]; simpl;
    try contradiction; auto; intros -> ->; try reflexivity.
  apply SFsigned_not_positive.
  apply (SFdiv_finite_signed prec emax true mu eu false (S754_finite false mv ev)).
  reflexivity.
Qed.

Lemma SFopp_not_negative (u : spec_float) :
  SFnot_negative u -> SFnot_positive (SFopp u).
Proof. destruct u; simpl; auto; intros ->; reflexivity. Qed.

Lemma SFopp_not_positive (u : spec_float) :
  SFnot_positive u -> SFnot_negative (SFopp u).
Proof. destruct u; simpl; auto; intros ->; reflexivity. Qed.

(** Subtracting a baseline from two path lengths and then the smaller
    result from the larger never gives a negative number. *)
Lemma sub_sub_not_negative (lo hi b : float) :
  (lo <? hi) = true ->
  SFnot_negative (Prim2SF ((hi - b) - (lo - b)))
  /\ SFnot_positive (Prim2SF ((lo - b) - (hi - b))).
Proof.
  rewrite ltb_spec. unfold SFltb.
  destruct (SFcompare (Prim2SF lo) (Prim2SF hi)) as [[]|] eqn:C;
    try discriminate. intros _.
  pose proof (SFsub_mono _ _ (Prim2SF b) (Prim2SF_valid lo) (Prim2SF_valid hi)
                (Prim2SF_valid b) C) as H.
  rewrite <- !sub_spec in H.
  apply SFsub_of_not_gt in H; try apply Prim2SF_valid.
  rewrite <- !sub_spec in H. exact H.
Qed.

(** ** From the specification of the operators to [float] *)

Lemma ltb_zero_l (v : float) :
  (0 <? v) = true ->
  SFsigned false (Prim2SF v)
  /\ exists s m e,
       Prim2SF v = S754_infinity s \/ Prim2SF v = S754_finite s m e.
Proof.
  rewrite ltb_spec. change (Prim2SF 0) with (S754_zero false).
  destruct (Prim2SF v) as [s|[]| |[] m e]; simpl; try discriminate; intros _;
    (split; [reflexivity|]).
  - exists false, 1%positive, 0%Z. auto.
  - exists false, m, e. auto.
Qed.

Lemma ltb_sub_signed (a b : float) :
  (a <? b) = true ->
  SFsigned false (Prim2SF (b - a)) /\ SFsigned true (Prim2SF (a - b)).
Proof.
  rewrite ltb_spec, !sub_spec. intros H.
  apply SFsub_of_lt; auto using Prim2SF_valid.
Qed.

(** The wavelength of a positive carrier frequency is a number without
    sign bit: positive, or [+0] or [+Infinity] when the quotient leaves the
    range of binary64. *)
Lemma wavelength_signed (fc : float) :
  (0 <? fc) = true -> SFsigned false (Prim2SF (299792458 / (fc * 1000000))).
Proof.
  intros H. apply ltb_zero_l in H as [Hs (s & m & e & Hc)].
  rewrite div_spec, mul_spec.
  assert (Hm : SFsigned false (SF64mul (Prim2SF fc) (Prim2SF 1000000))).
  { destruct Hc as [Hc | Hc]; rewrite Hc in *; simpl in Hs; subst s.
    - reflexivity.
    - apply binary_round_aux_signed. lia. }
  assert (Hc0 : exists mc ec, Prim2SF 299792458 = S754_finite false mc ec)
    by (vm_compute; eauto).
  destruct Hc0 as (mc & ec & ->).
  apply (SFdiv_finite_signed prec emax false mc ec false), Hm.
Qed.

(** ** Magnitudes that rounding keeps

    Where the exact result of an operation lies well inside the range of
    binary64, the rounded result is a finite number, not zero, of the
    same binade or at the bottom of the next one.  This is what keeps the
    sign of the estimator's result for inputs of moderate magnitude. *)

Section Magnitude.

#[local] Open Scope Z_scope.

Lemma shr_1_half (mrs : shr_record) :
  0 <= shr_m mrs -> shr_m (shr_1 mrs) = shr_m mrs / 2.
Proof.
  destruct mrs as [m r s]. cbn [shr_m]. intros H.
  destruct m as [|[p|p|]|p]; try lia; unfold shr_1; cbn [shr_m].
  - reflexivity.
  - apply (Z.div_unique (Zpos p~1) 2 (Zpos p) 1); lia.
  - apply (Z.div_unique (Zpos p~0) 2 (Zpos p) 0); lia.
  - reflexivity.
Qed.

Lemma shr_m_iter (k : nat) (mrs : shr_record) :
  0 <= shr_m mrs ->
  shr_m (Nat.iter k shr_1 mrs) = shr_m mrs / 2 ^ Z.of_nat k.
Proof.
  intros H. induction k as [|k IH].
  - simpl. rewrite Z.div_1_r. reflexivity.
  - assert (HP : 0 < 2 ^ Z.of_nat k) by (apply Z.pow_pos_nonneg; lia).
    cbn [Nat.iter nat_rect]. change (nat_rect _ mrs (fun _ => shr_1) k)
      with (Nat.iter k shr_1 mrs).
    rewrite shr_1_half by (rewrite IH; apply Z.div_pos; lia).
    rewrite IH, Z.div_div by lia.
    rewrite Nat2Z.inj_succ, Z.pow_succ_r by lia.
    f_equal. lia.
Qed.

Lemma shr_m_of_loc (m : Z) (l : location) : shr_m (shr_record_of_loc m l) = m.
Proof. destruct l as [|[]]; reflexivity. Qed.

Lemma round_nearest_even_bounds (m : Z) (l : location) :
  m <= round_nearest_even m l <= m + 1.
Proof.
  destruct l as [|[]]; cbn [round_nearest_even]; try lia.
  destruct (Z.even m); lia.
Qed.

(** The bits that a right shift leaves. *)
Lemma digits_div_pow2 (p : positive) (k : Z) :
  0 <= k < Zpos (digits2_pos p) ->
  exists q, Zpos p / 2 ^ k = Zpos q
            /\ Zpos (digits2_pos q) = Zpos (digits2_pos p) - k.
Proof.
  intros Hk. pose proof (digits2_pos_bounds p) as [L U].
  set (d := Zpos (digits2_pos p)) in *.
  assert (HP : 0 < 2 ^ k) by (apply Z.pow_pos_nonneg; lia).
  assert (E1 : 2 ^ (d - 1) = 2 ^ (d - k - 1) * 2 ^ k).
  { rewrite <- Z.pow_add_r by lia. f_equal. lia. }
  assert (E2 : 2 ^ d = 2 ^ (d - k) * 2 ^ k).
  { rewrite <- Z.pow_add_r by lia. f_equal. lia. }
  assert (Lq : 2 ^ (d - k - 1) <= Zpos p / 2 ^ k)
    by (apply Z.div_le_lower_bound; lia).
  assert (Uq : Zpos p / 2 ^ k < 2 ^ (d - k))
    by (apply Z.div_lt_upper_bound; lia).
  assert (0 < 2 ^ (d - k - 1)) by (apply Z.pow_pos_nonneg; lia).
  destruct (Zpos p / 2 ^ k) as [|q|q] eqn:E; try lia.
  exists q. split; [reflexivity|]. apply digits_unique. lia.
Qed.

Lemma fexp_mono (a b : Z) : a <= b -> fexp prec emax a <= fexp prec emax b.
Proof. rewrite !fexp64. lia. Qed.

(** What [shr_fexp] leaves of a mantissa that is at least as fine as its
    binade allows: the same binade, at the exponent of that binade. *)
Lemma shr_fexp_binade (q : positive) (e : Z) (l : location) :
  e <= fexp prec emax (binade q e) -> -1074 < binade q e ->
  exists q' mrs,
    shr_fexp prec emax (Zpos q) e l = (mrs, fexp prec emax (binade q e))
    /\ shr_m mrs = Zpos q'
    /\ binade q' (fexp prec emax (binade q e)) = binade q e.
Proof.
  intros Hf Hb. unfold shr_fexp. rewrite shr_nat. simpl Zdigits2.
  fold (binade q e). set (F := fexp prec emax (binade q e)) in *.
  assert (HF : F < binade q e) by (subst F; rewrite fexp64; lia).
  destruct (digits_div_pow2 q (F - e)) as (q' & Eq & Dq);
    [unfold binade in HF; lia|].
  exists q', (Nat.iter (Z.to_nat (F - e)) shr_1 (shr_record_of_loc (Zpos q) l)).
  split; [f_equal; lia|]. split.
  - rewrite shr_m_iter by (rewrite shr_m_of_loc; lia).
    rewrite shr_m_of_loc, Z2Nat.id by lia. exact Eq.
  - unfold binade in *. lia.
Qed.

(** Rounding a positive mantissa whose binade is within the range of
    binary64 gives a finite number, not zero, in that binade or at the
    bottom of the next. *)
Lemma binary_round_aux_within (s : bool) (p : positive) (e : Z) (l : location) :
  e <= fexp prec emax (binade p e) ->
  -1073 <= binade p e <= 1023 ->
  SFwithin s (binade p e) (binade p e + 1)
    (binary_round_aux prec emax s (Zpos p) e l).
Proof.
  intros Hf Hb. unfold binary_round_aux.
  destruct (shr_fexp_binade p e l Hf ltac:(lia)) as (q1 & mrs1 & -> & Hm1 & B1).
  set (M := binade p e) in *. set (F := fexp prec emax M) in *.
  pose proof (round_nearest_even_bounds (shr_m mrs1) (loc_of_shr_record mrs1)) as R.
  rewrite Hm1 in R |- *.
  destruct (round_nearest_even (Zpos q1) (loc_of_shr_record mrs1))
    as [|q2|q2]; try lia.
  assert (B2 : M <= binade q2 F <= M + 1).
  { pose proof (digits2_pos_bounds q1) as [L1 U1].
    pose proof (digits2_pos_bounds q2) as [L2 U2].
    unfold binade in *.
    set (d1 := Zpos (digits2_pos q1)) in *. set (d2 := Zpos (digits2_pos q2)) in *.
    assert (d1 - 1 < d2).
    { apply (Z.pow_lt_mono_r_iff 2); subst d2; lia. }
    assert (d2 - 1 < d1 + 1).
    { apply (Z.pow_lt_mono_r_iff 2); [lia|subst d1; lia|].
      rewrite Z.pow_add_r by (subst d1; lia). lia. }
    lia. }
  assert (Hf2 : F <= fexp prec emax (binade q2 F)) by (apply fexp_mono; lia).
  destruct (shr_fexp_binade q2 F loc_Exact Hf2 ltac:(lia)) as (q3 & mrs3 & -> & Hm3 & B3).
  rewrite Hm3.
  assert (HE : fexp prec emax (binade q2 F) <= 971) by (rewrite fexp64; lia).
  change (emax - prec) with 971.
  apply Z.leb_le in HE. rewrite HE.
  cbn [SFwithin]. split; [reflexivity|]. lia.
Qed.


Lemma digits_between (q : positive) (k : Z) :
  0 <= k -> 2 ^ (k - 1) <= Zpos q < 2 ^ (k + 1) ->
  k <= Zpos (digits2_pos q) <= k + 1.
Proof.
  intros Hk [L U]. pose proof (digits2_pos_bounds q) as [L' U'].
  set (d := Zpos (digits2_pos q)) in *.
  assert (k - 1 < d).
  { destruct (Z.eq_dec k 0) as [->|]; [subst d; lia|].
    apply (Z.pow_lt_mono_r_iff 2); subst d; lia. }
  assert (d - 1 < k + 1).
  { apply (Z.pow_lt_mono_r_iff 2); lia. }
  lia.
Qed.

(** The quotient of two finite numbers whose binades differ by [D], when
    [D] is within the range of binary64. *)
Lemma SFdiv_within (sx : bool) (mx : positive) (ex : Z)
    (sy : bool) (my : positive) (ey : Z) :
  -1073 <= binade mx ex - binade my ey <= 1022 ->
  SFwithin (xorb sx sy) (binade mx ex - binade my ey) (binade mx ex - binade my ey + 2)
    (SF64div (S754_finite sx mx ex) (S754_finite sy my ey)).
Proof.
  intros HD. unfold SF64div, SFdiv, SFdiv_core_binary. cbv zeta. simpl Zdigits2.
  pose proof (digits2_pos_bounds mx) as [Lx Ux].
  pose proof (digits2_pos_bounds my) as [Ly Uy].
  unfold binade in *.
  set (d1 := Zpos (digits2_pos mx)) in *. set (d2 := Zpos (digits2_pos my)) in *.
  set (D := d1 + ex - (d2 + ey)) in *.
  set (e' := Z.min (fexp prec emax D) (ex - ey)).
  set (s := ex - ey - e').
  assert (HfD : fexp prec emax D < D) by (rewrite fexp64; lia).
  assert (Hs : 0 <= s) by (subst s e'; lia).
  set (k := d1 + s - d2).
  assert (Hk : 1 <= k) by (subst k s e' D; lia).
  set (m' := match s with Zpos _ => Z.shiftl (Zpos mx) s | 0 => Zpos mx | Zneg _ => 0 end).
  assert (Em : m' = Zpos mx * 2 ^ s).
  { subst m'. destruct s as [|ps|ps] eqn:Es; try lia.
    apply Z.shiftl_mul_pow2. lia. }
  pose proof (Z_div_mod m' (Zpos my) eq_refl) as Hdm.
  destruct (Z.div_eucl m' (Zpos my)) as [q r]. destruct Hdm as [Hq Hr].
  assert (HP : 0 < 2 ^ s) by (apply Z.pow_pos_nonneg; lia).
  assert (L' : 2 ^ (d1 - 1 + s) <= m').
  { rewrite Em, Z.pow_add_r by (subst d1; lia). nia. }
  assert (U' : m' < 2 ^ (d1 + s)).
  { rewrite Em, Z.pow_add_r by (subst d1; lia). nia. }
  assert (E1 : 2 ^ (d1 - 1 + s) = 2 ^ d2 * 2 ^ (k - 1)).
  { rewrite <- Z.pow_add_r by (subst d2; lia). f_equal. subst k. lia. }
  assert (E2 : 2 ^ (d1 + s) = 2 ^ (d2 - 1) * 2 ^ (k + 1)).
  { rewrite <- Z.pow_add_r by (subst d2; lia). f_equal. subst k. lia. }
  assert (P1 : 0 < 2 ^ (k - 1)) by (apply Z.pow_pos_nonneg; lia).
  assert (P2 : 0 < 2 ^ (k + 1)) by (apply Z.pow_pos_nonneg; lia).
  assert (Lq : 2 ^ (k - 1) <= q).
  { destruct (Z.le_gt_cases (2 ^ (k - 1)) q) as [|G]; [assumption|exfalso].
    assert (Zpos my * (q + 1) <= Zpos my * 2 ^ (k - 1))
      by (apply Z.mul_le_mono_nonneg_l; lia).
    assert (Zpos my * 2 ^ (k - 1) < 2 ^ d2 * 2 ^ (k - 1))
      by (apply Z.mul_lt_mono_pos_r; lia).
    lia. }
  assert (Uq : q < 2 ^ (k + 1)).
  { destruct (Z.lt_ge_cases q (2 ^ (k + 1))) as [|G]; [assumption|exfalso].
    assert (Zpos my * 2 ^ (k + 1) <= Zpos my * q)
      by (apply Z.mul_le_mono_nonneg_l; lia).
    assert (2 ^ (d2 - 1) * 2 ^ (k + 1) <= Zpos my * 2 ^ (k + 1))
      by (apply Z.mul_le_mono_nonneg_r; lia).
    lia. }
  destruct q as [|pq|pq]; try lia.
  pose proof (digits_between pq k ltac:(lia) (conj Lq Uq)) as Hd.
  assert (Hb : D <= binade pq e' <= D + 1).
  { unfold binade. subst k s D. lia. }
  pose proof (binary_round_aux_within (xorb sx sy) pq e' (new_location (Zpos my) r)) as W.
  assert (Hf : e' <= fexp prec emax (binade pq e')).
  { apply Z.le_trans with (fexp prec emax D); [subst e'; lia|apply fexp_mono; lia]. }
  specialize (W Hf ltac:(lia)).
  destruct (binary_round_aux prec emax (xorb sx sy) (Zpos pq) e' _) as [?|?| |s' m e];
    cbn [SFwithin] in *; try contradiction.
  destruct W as [-> W]. split; [reflexivity|]. unfold binade in *. lia.
Qed.

(** The product of two normal numbers. *)
Lemma SFmul_within (sx : bool) (mx : positive) (ex : Z)
    (sy : bool) (my : positive) (ey : Z) :
  Zpos (digits2_pos mx) = 53 -> Zpos (digits2_pos my) = 53 ->
  -1072 <= binade mx ex + binade my ey <= 1023 ->
  SFwithin (xorb sx sy) (binade mx ex + binade my ey - 1) (binade mx ex + binade my ey + 1)
    (SF64mul (S754_finite sx mx ex) (S754_finite sy my ey)).
Proof.
  intros Hx Hy HB. unfold SF64mul, SFmul.
  pose proof (digits2_pos_bounds mx) as [Lx Ux].
  pose proof (digits2_pos_bounds my) as [Ly Uy].
  unfold binade in *. rewrite Hx, Hy in *.
  assert (Hd : 105 <= Zpos (digits2_pos (mx * my)) <= 106).
  { apply digits_between; [lia|]. rewrite Pos2Z.inj_mul.
    change (2 ^ (105 - 1)) with (2 ^ 52 * 2 ^ 52).
    change (2 ^ (105 + 1)) with (2 ^ 53 * 2 ^ 53).
    change (2 ^ (53 - 1)) with (2 ^ 52) in *. nia. }
  pose proof (binary_round_aux_within (xorb sx sy) (mx * my) (ex + ey) loc_Exact) as W.
  unfold binade in W.
  assert (Hf : ex + ey <= fexp prec emax (Zpos (digits2_pos (mx * my)) + (ex + ey)))
    by (rewrite fexp64; lia).
  specialize (W Hf ltac:(lia)).
  destruct (binary_round_aux prec emax (xorb sx sy) (Zpos (mx * my)) (ex + ey) _)
    as [?|?| |s' m e]; cbn [SFwithin] in *; try contradiction.
  destruct W as [-> W]. split; [reflexivity|]. lia.
Qed.

End Magnitude.

(** ** Numbers of moderate magnitude *)

Section Moderate.

#[local] Open Scope Z_scope.

(** A number of moderate magnitude is a normal number whose binade lies
    between -299 and 301. *)
Lemma moderate_within (v : float) :
  moderate v = true ->
  exists s m e,
    Prim2SF v = S754_finite s m e
    /\ Zpos (digits2_pos m) = 53 /\ -299 <= binade m e <= 301.
Proof.
  unfold moderate. rewrite andb_true_iff, !leb_spec, abs_spec.
  change (Prim2SF 0x1p-300) with (S754_finite false 4503599627370496 (-352)).
  change (Prim2SF 0x1p300) with (S754_finite false 4503599627370496 248).
  pose proof (Prim2SF_valid v) as V.
  destruct (Prim2SF v) as [s|s| |s m e]; cbn [SFabs]; intros [Lo Hi];
    try discriminate.
  exists s, m, e. split; [reflexivity|].
  cbn [valid_binary SpecFloat.valid_binary] in V. unfold bounded, canonical_mantissa in V.
  apply andb_true_iff in V as [V _]. apply Z.eqb_eq in V. rewrite fexp64 in V.
  unfold SFleb, SFcompare in Lo, Hi.
  assert (He : -352 <= e).
  { destruct (Z.compare_spec (-352) e); try lia; discriminate. }
  assert (Hd : Zpos (digits2_pos m) = 53) by lia.
  split; [exact Hd|]. unfold binade. rewrite Hd.
  destruct (Z.compare_spec e 248) as [E|E|E]; try lia; discriminate.
Qed.

Lemma SFwithin_finite (s : bool) (lo hi : Z) (u : spec_float) :
  SFwithin s lo hi u -> exists m e, u = S754_finite s m e /\ lo <= binade m e <= hi.
Proof.
  destruct u as [?|?| |s' m e]; cbn [SFwithin]; try contradiction.
  intros [-> H]. eauto.
Qed.

(** The wavelength of a carrier frequency of moderate magnitude. *)
Lemma wavelength_within (fc : float) :
  moderate fc = true -> SFsigned false (Prim2SF fc) ->
  SFwithin false (-293) 311 (Prim2SF (299792458 / (fc * 1000000))%float).
Proof.
  intros Hm Hs. destruct (moderate_within fc Hm) as (s & m & e & E & Hd & Hb).
  rewrite E in Hs. cbn [SFsigned] in Hs. subst s.
  rewrite div_spec, mul_spec, E.
  change (Prim2SF 1000000) with (S754_finite false 8589934592000000 (-33)).
  change (Prim2SF 299792458) with (S754_finite false 5029682823036928 (-24)).
  pose proof (SFmul_within false m e false 8589934592000000 (-33) Hd eq_refl) as W.
  change (binade 8589934592000000 (-33)) with 20 in W.
  specialize (W ltac:(lia)). cbn [xorb] in W.
  apply SFwithin_finite in W as (m6 & e6 & -> & B6).
  pose proof (SFdiv_within false 5029682823036928 (-24) false m6 e6) as W.
  change (binade 5029682823036928 (-24)) with 29 in W.
  specialize (W ltac:(lia)). cbn [xorb] in W.
  apply SFwithin_finite in W as (ml & el & -> & Bl).
  cbn [SFwithin xorb]. split; [reflexivity|]. lia.
Qed.

(** The value returned for a delay difference, a time step and a carrier
    frequency of moderate magnitude: a finite number, not zero, of the
    sign opposite to that of the delay difference. *)
Lemma doppler_within (dd dt fc : float) (s : bool) :
  moderate dd = true -> moderate dt = true -> moderate fc = true ->
  SFsigned s (Prim2SF dd) -> SFsigned false (Prim2SF dt) ->
  SFsigned false (Prim2SF fc) ->
  exists m e,
    Prim2SF (- (dd / dt) / (299792458 / (fc * 1000000)))%float
    = S754_finite (negb s) m e.
Proof.
  intros Md Mt Mf Sd St Sf.
  pose proof (wavelength_within fc Mf Sf) as Wl.
  destruct (moderate_within dd Md) as (sd & md & ed & Ed & _ & Bd).
  destruct (moderate_within dt Mt) as (st & mt & et & Et & _ & Bt).
  rewrite Ed in Sd. rewrite Et in St. cbn [SFsigned] in Sd, St. subst sd st.
  rewrite div_spec, opp_spec, div_spec, Ed, Et.
  apply SFwithin_finite in Wl as (ml & el & -> & Bl).
  pose proof (SFdiv_within s md ed false mt et ltac:(lia)) as W.
  apply SFwithin_finite in W as (mr & er & -> & Br).
  cbn [SFopp].
  pose proof (SFdiv_within (negb (xorb s false)) mr er false ml el ltac:(lia)) as W.
  apply SFwithin_finite in W as (mv & ev & -> & _).
  exists mv, ev. destruct s; reflexivity.
Qed.

Lemma ltb_zero_of_negative (v : float) (m : positive) (e : Z) :
  Prim2SF v = S754_finite true m e -> (v <? 0)%float = true.
Proof. intros E. rewrite ltb_spec, E. reflexivity. Qed.

Lemma ltb_zero_of_positive (v : float) (m : positive) (e : Z) :
  Prim2SF v = S754_finite false m e -> (0 <? v)%float = true.
Proof. intros E. rewrite ltb_spec, E. reflexivity. Qed.

Lemma moderate_signed (v : float) :
  moderate v = true ->
  (SFnot_negative (Prim2SF v) -> SFsigned false (Prim2SF v))
  /\ (SFnot_positive (Prim2SF v) -> SFsigned true (Prim2SF v)).
Proof.
  intros H. destruct (moderate_within v H) as (s & m & e & -> & _).
  cbn [SFnot_negative SFnot_positive SFsigned]. auto.
Qed.

End Moderate.

(** ** The estimator on a history *)

Lemma idx_last_two (l : list float) (a b : float) :
  idx (l ++ [a; b]) (length l + 2 - 1) = b /\
  idx (l ++ [a; b]) (length l + 2 - 2) = a.
Proof.
  unfold idx. split.
  - rewrite app_nth2 by lia.
    replace (length l + 2 - 1 - length l)%nat with 1%nat by lia. reflexivity.
  - rewrite app_nth2 by lia.
    replace (length l + 2 - 2 - length l)%nat with 0%nat by lia. reflexivity.
Qed.

(** A history with at least two samples ends in two samples. *)
Lemma two_last_samples {A : Type} (l : list A) :
  (2 <= length l)%nat -> exists pre prev last, l = pre ++ [prev; last].
Proof.
  intros H.
  destruct (exists_last (l := l)) as (l1 & last & ->);
    [destruct l; simpl in H; [lia | discriminate]|].
  rewrite length_app in H. simpl in H.
  destruct (exists_last (l := l1)) as (pre & prev & ->);
    [destruct l1; simpl in H; [lia | discriminate]|].
  exists pre, prev, last. rewrite <- app_assoc. reflexivity.
Qed.

Section Estimator.

Variable norm : list float -> float.

(** The value the estimator computes from the two most recent samples. *)
Lemma doppler_last_two (ps : list Ecef) (ts : list float)
    (p_prev p_last : Ecef) (t_prev t_last : float)
    (ecefRx ecefTx : Ecef) (dRxTx fc : float) :
  length ts = length ps ->
  calculatePositionBasedDoppler norm (ps ++ [p_prev; p_last])
    (ts ++ [t_prev; t_last]) ecefRx ecefTx dRxTx fc
  = Some (- ((delay_of norm ecefRx ecefTx dRxTx p_last
              - delay_of norm ecefRx ecefTx dRxTx p_prev)
             / (t_last - t_prev))
          / (299792458 / (fc * 1000000))).
Proof.
  intros Hlen. unfold calculatePositionBasedDoppler, delays.
  rewrite length_app. simpl length.
  replace (length ps + 2 <? 2)%nat with false by (symmetry; apply Nat.ltb_ge; lia).
  cbv zeta. rewrite length_map, length_app. simpl length.
  rewrite map_app. simpl map.
  destruct (idx_last_two (map (delay_of norm ecefRx ecefTx dRxTx) ps)
              (delay_of norm ecefRx ecefTx dRxTx p_prev)
              (delay_of norm ecefRx ecefTx dRxTx p_last)) as [D1 D2].
  rewrite length_map in D1, D2. rewrite D1, D2.
  destruct (idx_last_two ts t_prev t_last) as [T1 T2].
  rewrite Hlen in T1, T2. rewrite T1, T2.
  reflexivity.
Qed.

Lemma doppler_history (h : list PositionSample) (prev last : PositionSample)
    (ecefRx ecefTx : Ecef) (dRxTx fc : float) :
  calculatePositionBasedDoppler norm
    (positions_of (h ++ [prev; last])) (timestamps_of (h ++ [prev; last]))
    ecefRx ecefTx dRxTx fc
  = Some (- ((delay_of norm ecefRx ecefTx dRxTx (fst last)
              - delay_of norm ecefRx ecefTx dRxTx (fst prev))
             / (snd last - snd prev))
          / (299792458 / (fc * 1000000))).
Proof.
  unfold positions_of, timestamps_of. rewrite !map_app. simpl map.
  apply doppler_last_two. rewrite !length_map. reflexivity.
Qed.

(** Every history of two or more samples gets a number, never [null]. *)
Lemma history_of_two_gives_number (history : list PositionSample)
    (ecefRx ecefTx : Ecef) (dRxTx fc : float) :
  (2 <= length history)%nat ->
  exists v,
    calculatePositionBasedDoppler norm
      (positions_of history) (timestamps_of history) ecefRx ecefTx dRxTx fc
    = Some v.
Proof.
  intros H. destruct (two_last_samples history H) as (h & prev & last & ->).
  rewrite doppler_history. eexists. reflexivity.
Qed.

(** The element of [delays] at the index of a position. *)
Lemma delays_nth_error (positions : list Ecef) (ecefRx ecefTx : Ecef)
    (dRxTx : float) (i : nat) (pos : Ecef) :
  nth_error positions i = Some pos ->
  nth_error (delays norm ecefRx ecefTx dRxTx positions) i
  = Some (range norm ecefRx pos + range norm ecefTx pos - dRxTx).
Proof.
  intros H. unfold delays. rewrite nth_error_map, H. reflexivity.
Qed.

(** With the norm of section 4.1, the norm of a difference of two points
    is their Euclidean distance. *)
Lemma range_of_norm (a b : Ecef) :
  (forall v, norm v = vectorNorm v) -> range norm a b = euclidean_distance a b.
Proof. intros H. unfold range. rewrite H. apply vectorNorm_3. Qed.

(** The result on two or more positions, from the array [delays]. *)
Lemma doppler_of_delays (positions : list Ecef) (timestamps : list float)
    (ecefRx ecefTx : Ecef) (dRxTx fc : float) :
  (2 <= length positions)%nat ->
  calculatePositionBasedDoppler norm positions timestamps ecefRx ecefTx dRxTx fc
  = Some (- ((idx (delays norm ecefRx ecefTx dRxTx positions) (length positions - 1)
              - idx (delays norm ecefRx ecefTx dRxTx positions) (length positions - 2))
             / (idx timestamps (length positions - 1)
                - idx timestamps (length positions - 2)))
          / (299792458 / (fc * 1000000))).
Proof.
  intros H. unfold calculatePositionBasedDoppler.
  replace (length positions <? 2)%nat with false by (symmetry; apply Nat.ltb_ge; lia).
  cbv zeta.
  replace (length (delays norm ecefRx ecefTx dRxTx positions)) with (length positions)
    by (unfold delays; rewrite length_map; reflexivity).
  reflexivity.
Qed.

Lemma delay_of_swap (ecefRx ecefTx : Ecef) (dRxTx : float) (pos : Ecef) :
  delay_of norm ecefRx ecefTx dRxTx pos = delay_of norm ecefTx ecefRx dRxTx pos.
Proof. unfold delay_of. cbv zeta. f_equal. apply float_add_comm. Qed.

End Estimator.

(** ** Equal timestamps *)

Lemma SFdiv_zero_or_nan_r (a b : spec_float) :
  SFzero_or_nan b -> SFnonfinite (SF64div a b).
Proof.
  destruct b as [sb|sb| |sb mb eb]; simpl; try contradiction; intros _;
    destruct a as [[]|[]| |sa ma ea]; exact I.
Qed.

Lemma sub_equal_timestamps (t_prev t_last : float) :
  (t_prev =? t_last) = true \/ t_prev = t_last ->
  SFzero_or_nan (Prim2SF (t_last - t_prev)).
Proof.
  rewrite sub_spec. intros [H | ->].
  - rewrite eqb_spec in H. unfold SFeqb in H.
    destruct (SFcompare (Prim2SF t_prev) (Prim2SF t_last)) as [[]|] eqn:C;
      try discriminate.
    apply SFsub_of_eq in C as [C _]. exact C.
  - destruct (SFsub_diag (Prim2SF t_last)) as [-> | ->]; exact I.
Qed.

(** ** The claims

    A history of two or more samples is written [h ++ [prev; last]]
    ([two_last_samples]); its positions and timestamps are the two arrays
    the estimator receives. *)

Section Claims.

Variable norm : list float -> float.

(** C1, as the code has it: when the two most recent timestamps are
    equal the estimator signals nothing; it divides by the zero
    difference and returns a number that is NaN or an infinity. *)
Theorem equal_timestamps_return_nonfinite
    (h : list PositionSample) (prev last : PositionSample)
    (ecefRx ecefTx : Ecef) (dRxTx fc : float) :
  (snd prev =? snd last) = true \/ snd prev = snd last ->
  exists v,
    calculatePositionBasedDoppler norm
      (positions_of (h ++ [prev; last])) (timestamps_of (h ++ [prev; last]))
      ecefRx ecefTx dRxTx fc = Some v
    /\ is_finite v = false.
Proof.
  intros Heq. rewrite doppler_history. eexists. split; [reflexivity|].
  apply is_finite_false.
  rewrite div_spec, opp_spec, div_spec.
  apply SFdiv_nonfinite_l, SFopp_nonfinite, SFdiv_zero_or_nan_r.
  apply sub_equal_timestamps, Heq.
Qed.

(** C2: when the imported [norm] is the Euclidean norm of section 4.1,
    the estimator, on a history of two or more positions, builds the
    array [delays] with
    [delays[i] = distance(Rx, pos[i]) + distance(Tx, pos[i]) - dRxTx]
    for every index [i] of [positions], where the distance is the
    Euclidean distance of the two points and [dRxTx] is the baseline it
    was given, and computes its result from the last two elements of
    that array.  (With fewer than two positions the function returns
    before line 7.) *)
Theorem estimator_delays_are_excess_bistatic_paths
    (positions : list Ecef) (timestamps : list float)
    (ecefRx ecefTx : Ecef) (dRxTx fc : float) :
  (forall v, norm v = vectorNorm v) ->
  (2 <= length positions)%nat ->
  let n := length positions in
  let delay := delays norm ecefRx ecefTx dRxTx positions in
  (forall i pos,
     nth_error positions i = Some pos ->
     nth_error delay i
     = Some (euclidean_distance ecefRx pos + euclidean_distance ecefTx pos - dRxTx))
  /\ calculatePositionBasedDoppler norm positions timestamps ecefRx ecefTx dRxTx fc
     = Some (- ((idx delay (n - 1) - idx delay (n - 2))
                / (idx timestamps (n - 1) - idx timestamps (n - 2)))
             / (299792458 / (fc * 1000000))).
Proof.
  intros Hnorm Hlen n delay. split.
  - intros i pos Hi. subst delay.
    rewrite (delays_nth_error norm _ _ _ _ _ _ Hi), !(range_of_norm norm) by exact Hnorm.
    reflexivity.
  - apply doppler_of_delays, Hlen.
Qed.

(** C3: for a history of at least two samples whose last two timestamps
    differ and a positive carrier frequency, the estimator returns
    [-rangeRate / wavelength], with the range rate taken from the last
    two samples and [wavelength = 299792458 / (fc * 1e6)].  (The equation
    does not need the two conditions: see [doppler_history].) *)
Theorem doppler_is_range_rate_over_wavelength
    (h : list PositionSample) (prev last : PositionSample)
    (ecefRx ecefTx : Ecef) (dRxTx fc : float) :
  (snd prev =? snd last) = false ->
  (0 <? fc) = true ->
  calculatePositionBasedDoppler norm
    (positions_of (h ++ [prev; last])) (timestamps_of (h ++ [prev; last]))
    ecefRx ecefTx dRxTx fc
  = Some (- spec_rangeRate (spec_delay norm ecefRx ecefTx dRxTx (fst prev))
                           (spec_delay norm ecefRx ecefTx dRxTx (fst last))
                           (snd prev) (snd last)
          / spec_wavelength fc).
Proof. intros _ _. apply doppler_history. Qed.

(** C4: a history of no sample or of one sample gives [null], whatever
    the other arguments are. *)
Theorem insufficient_history_unavailable
    (positions : list Ecef) (timestamps : list float)
    (ecefRx ecefTx : Ecef) (dRxTx fc : float) :
  (length positions < 2)%nat ->
  calculatePositionBasedDoppler norm positions timestamps ecefRx ecefTx dRxTx fc
  = None.
Proof.
  intros H. unfold calculatePositionBasedDoppler.
  apply Nat.ltb_lt in H. rewrite H. reflexivity.
Qed.

(** C9: two histories that end in the same two samples give the same
    result, whatever the earlier samples are. *)
Theorem only_last_two_samples_matter
    (h h' : list PositionSample) (prev last : PositionSample)
    (ecefRx ecefTx : Ecef) (dRxTx fc : float) :
  calculatePositionBasedDoppler norm
    (positions_of (h ++ [prev; last])) (timestamps_of (h ++ [prev; last]))
    ecefRx ecefTx dRxTx fc
  = calculatePositionBasedDoppler norm
      (positions_of (h' ++ [prev; last])) (timestamps_of (h' ++ [prev; last]))
      ecefRx ecefTx dRxTx fc.
Proof. rewrite !doppler_history. reflexivity. Qed.

(** C10: exchanging the receiver and the transmitter does not change
    the result. *)
Theorem estimator_symmetric_in_stations
    (positions : list Ecef) (timestamps : list float)
    (ecefRx ecefTx : Ecef) (dRxTx fc : float) :
  calculatePositionBasedDoppler norm positions timestamps ecefRx ecefTx dRxTx fc
  = calculatePositionBasedDoppler norm positions timestamps ecefTx ecefRx dRxTx fc.
Proof.
  unfold calculatePositionBasedDoppler, delays.
  rewrite (map_ext _ _ (delay_of_swap norm ecefRx ecefTx dRxTx)).
  reflexivity.
Qed.

End Claims.

(** ** Two invocations

    The estimator as a procedure ([Procedure]) is compared with the
    estimator as a function.  Whatever the calls of [norm] do to the
    state, the procedure returns the value of the function as long as
    the value that [norm] returns is determined by its argument. *)

Section Determinism.

Variable World : Type.
Variable norm : list float -> World -> float * World.

Lemma procedure_delay_of (ecefRx ecefTx : Ecef) (dRxTx : float) (pos : Ecef)
    (w0 w : World) :
  (forall v w1 w2, fst (norm v w1) = fst (norm v w2)) ->
  fst (Procedure.delay_of norm ecefRx ecefTx dRxTx pos w)
  = delay_of (fun v => fst (norm v w0)) ecefRx ecefTx dRxTx pos.
Proof.
  intros H. unfold Procedure.delay_of, Procedure.bind, Procedure.ret, delay_of.
  cbv zeta.
  destruct (norm [x ecefRx - x pos; y ecefRx - y pos; z ecefRx - z pos] w)
    as [dRxTar w1] eqn:E1.
  destruct (norm [x ecefTx - x pos; y ecefTx - y pos; z ecefTx - z pos] w1)
    as [dTxTar w2] eqn:E2.
  cbn [fst].
  rewrite (H _ w0 w), E1, (H _ w0 w1), E2. reflexivity.
Qed.

(** The array that [positions.map] builds, from any state. *)
Lemma procedure_delays (ecefRx ecefTx : Ecef) (dRxTx : float)
    (positions : list Ecef) (w0 : World) :
  (forall v w1 w2, fst (norm v w1) = fst (norm v w2)) ->
  forall w,
    fst (Procedure.array_map (Procedure.delay_of norm ecefRx ecefTx dRxTx) positions w)
    = delays (fun v => fst (norm v w0)) ecefRx ecefTx dRxTx positions.
Proof.
  intros H. induction positions as [|pos rest IH]; intros w; [reflexivity|].
  cbn [Procedure.array_map]. unfold Procedure.bind at 1.
  pose proof (procedure_delay_of ecefRx ecefTx dRxTx pos w0 w H) as Hd.
  destruct (Procedure.delay_of norm ecefRx ecefTx dRxTx pos w) as [b w1].
  unfold Procedure.bind at 1. specialize (IH w1).
  destruct (Procedure.array_map _ rest w1) as [bs w2].
  cbn [fst Procedure.ret] in *. unfold delays in *. cbn [map].
  rewrite Hd, IH. reflexivity.
Qed.

Lemma procedure_result (positions : list Ecef) (timestamps : list float)
    (ecefRx ecefTx : Ecef) (dRxTx fc : float) (w0 w : World) :
  (forall v w1 w2, fst (norm v w1) = fst (norm v w2)) ->
  fst (Procedure.calculatePositionBasedDoppler norm positions timestamps
         ecefRx ecefTx dRxTx fc w)
  = calculatePositionBasedDoppler (fun v => fst (norm v w0)) positions timestamps
      ecefRx ecefTx dRxTx fc.
Proof.
  intros H.
  unfold Procedure.calculatePositionBasedDoppler, calculatePositionBasedDoppler.
  destruct (length positions <? 2)%nat; [reflexivity|].
  unfold Procedure.bind.
  pose proof (procedure_delays ecefRx ecefTx dRxTx positions w0 H w) as Hd.
  destruct (Procedure.array_map _ positions w) as [ds w1].
  cbn [fst Procedure.ret] in *. cbv zeta. rewrite Hd. reflexivity.
Qed.

(** C7: when the value that the imported [norm] returns depends on its
    argument only, two invocations of the estimator with the same six
    arguments, the second in the state the first one left, return the
    same value, bit for bit: the value of the function
    [calculatePositionBasedDoppler] of these arguments.  The state is
    reached through [norm] alone, and what the calls do to it has no
    effect on the result. *)
Theorem two_invocations_return_same_result
    (positions : list Ecef) (timestamps : list float)
    (ecefRx ecefTx : Ecef) (dRxTx fc : float) (w : World) :
  (forall v w1 w2, fst (norm v w1) = fst (norm v w2)) ->
  let first :=
    Procedure.calculatePositionBasedDoppler norm positions timestamps
      ecefRx ecefTx dRxTx fc w in
  let second :=
    Procedure.calculatePositionBasedDoppler norm positions timestamps
      ecefRx ecefTx dRxTx fc (snd first) in
  fst first = fst second
  /\ fst first
     = calculatePositionBasedDoppler (fun v => fst (norm v w)) positions timestamps
         ecefRx ecefTx dRxTx fc.
Proof.
  intros H first second. subst first second.
  rewrite !(procedure_result _ _ _ _ _ _ w) by exact H.
  split; reflexivity.
Qed.

End Determinism.

(** ** The calls of [norm] *)

Lemma array_map_log (f : list float -> float) (ecefRx ecefTx : Ecef)
    (dRxTx : float) (positions : list Ecef) :
  forall log,
    snd (Procedure.array_map
           (Procedure.delay_of (logging_norm f) ecefRx ecefTx dRxTx) positions log)
    = log ++ flat_map (legs ecefRx ecefTx) positions.
Proof.
  induction positions as [|pos rest IH]; intros log.
  - simpl. rewrite app_nil_r. reflexivity.
  - cbn [Procedure.array_map]. unfold Procedure.bind at 1.
    unfold Procedure.delay_of at 1, Procedure.bind, logging_norm at 1 2, Procedure.ret.
    fold (@Procedure.bind (list (list float))).
    specialize (IH ((log ++ [[x ecefRx - x pos; y ecefRx - y pos; z ecefRx - z pos]])
                    ++ [[x ecefTx - x pos; y ecefTx - y pos; z ecefTx - z pos]])).
    destruct (Procedure.array_map _ rest _) as [bs log'].
    cbn [snd] in *. rewrite IH. cbn [flat_map legs].
    rewrite <- !app_assoc. reflexivity.
Qed.

(** X15: the estimator calls [norm] for every position of the history,
    not only for the two it uses: on two or more positions it makes two
    calls for each position, from the first position to the last, with
    the differences to the receiver and then to the transmitter, and no
    other call; on fewer than two positions it makes no call. *)
Theorem norm_called_for_every_position
    (f : list float -> float) (positions : list Ecef) (timestamps : list float)
    (ecefRx ecefTx : Ecef) (dRxTx fc : float) (log : list (list float)) :
  snd (Procedure.calculatePositionBasedDoppler (logging_norm f) positions timestamps
         ecefRx ecefTx dRxTx fc log)
  = if (length positions <? 2)%nat then log
    else log ++ flat_map (legs ecefRx ecefTx) positions.
Proof.
  unfold Procedure.calculatePositionBasedDoppler.
  destruct (length positions <? 2)%nat; [reflexivity|].
  unfold Procedure.bind.
  pose proof (array_map_log f ecefRx ecefTx dRxTx positions log) as H.
  destruct (Procedure.array_map _ positions log) as [ds log'].
  exact H.
Qed.

(** ** The sign of the result *)

Lemma not_positive_cases (v : float) :
  SFnot_positive (Prim2SF v) ->
  (v <? 0) = true \/ (v =? 0) = true \/ is_nan v = true.
Proof.
  unfold is_nan. rewrite ltb_spec, !eqb_spec.
  change (Prim2SF 0) with (S754_zero false).
  destruct (Prim2SF v) as [s|s| |s m e]; simpl; auto; intros ->; auto.
Qed.

Lemma not_negative_cases (v : float) :
  SFnot_negative (Prim2SF v) ->
  (0 <? v) = true \/ (v =? 0) = true \/ is_nan v = true.
Proof.
  unfold is_nan. rewrite ltb_spec, !eqb_spec.
  change (Prim2SF 0) with (S754_zero false).
  destruct (Prim2SF v) as [s|s| |s m e]; simpl; auto; intros ->; auto.
Qed.

(** The value returned for a delay difference [dd] that is not negative,
    and for one that is not positive. *)
Lemma doppler_not_positive (dd dt fc : float) :
  SFnot_negative (Prim2SF dd) -> SFsigned false (Prim2SF dt) ->
  (0 <? fc) = true ->
  SFnot_positive (Prim2SF (- (dd / dt) / (299792458 / (fc * 1000000)))).
Proof.
  intros Hdd Hdt Hfc.
  rewrite div_spec, opp_spec, div_spec.
  apply SFdiv_not_positive; [|apply wavelength_signed, Hfc].
  apply SFopp_not_negative, SFdiv_not_negative; assumption.
Qed.

Lemma doppler_not_negative (dd dt fc : float) :
  SFnot_positive (Prim2SF dd) -> SFsigned false (Prim2SF dt) ->
  (0 <? fc) = true ->
  SFnot_negative (Prim2SF (- (dd / dt) / (299792458 / (fc * 1000000)))).
Proof.
  intros Hdd Hdt Hfc.
  rewrite div_spec, opp_spec, div_spec.
  apply SFdiv_not_negative; [|apply wavelength_signed, Hfc].
  apply SFopp_not_positive, SFdiv_not_positive; assumption.
Qed.

Section SignConvention.

Variable norm : list float -> float.

Lemma delay_of_path (ecefRx ecefTx : Ecef) (dRxTx : float) (pos : Ecef) :
  delay_of norm ecefRx ecefTx dRxTx pos
  = bistatic_path norm ecefRx ecefTx pos - dRxTx.
Proof. reflexivity. Qed.

(** C5, as the code has it.  With increasing timestamps and a positive
    carrier frequency, a bistatic path that grew from the previous
    sample to the last gives a result that is never positive: it is
    negative, or else a zero or NaN; and it is negative whenever the
    difference of the two excess delays, the time step and the carrier
    frequency are of moderate magnitude (between [2^-300] and [2^300] in
    absolute value).  A path that shrank gives a result that is never
    negative, and positive for moderate magnitudes.  The zeros and NaN
    are what binary64 leaves of the sign when a quotient underflows,
    when the subtraction of the baseline absorbs the difference of the
    paths, or when an operand overflows; none of this happens within the
    moderate magnitudes. *)
Theorem sign_convention_in_binary64
    (h : list PositionSample) (prev last : PositionSample)
    (ecefRx ecefTx : Ecef) (dRxTx fc : float) :
  (snd prev <? snd last) = true ->
  (0 <? fc) = true ->
  let dd := delay_of norm ecefRx ecefTx dRxTx (fst last)
            - delay_of norm ecefRx ecefTx dRxTx (fst prev) in
  let dt := snd last - snd prev in
  exists v,
    calculatePositionBasedDoppler norm
      (positions_of (h ++ [prev; last])) (timestamps_of (h ++ [prev; last]))
      ecefRx ecefTx dRxTx fc = Some v
    /\ ((bistatic_path norm ecefRx ecefTx (fst prev)
         <? bistatic_path norm ecefRx ecefTx (fst last)) = true ->
        ((v <? 0) = true \/ (v =? 0) = true \/ is_nan v = true)
        /\ (moderate dd = true -> moderate dt = true -> moderate fc = true ->
            (v <? 0) = true))
    /\ ((bistatic_path norm ecefRx ecefTx (fst last)
         <? bistatic_path norm ecefRx ecefTx (fst prev)) = true ->
        ((0 <? v) = true \/ (v =? 0) = true \/ is_nan v = true)
        /\ (moderate dd = true -> moderate dt = true -> moderate fc = true ->
            (0 <? v) = true)).
Proof.
  intros Ht Hfc dd dt. subst dd dt.
  rewrite doppler_history. eexists. split; [reflexivity|].
  apply ltb_sub_signed in Ht as [Hdt _].
  pose proof (ltb_zero_l _ Hfc) as [Sfc _].
  rewrite !delay_of_path.
  split; intros Hp; apply (sub_sub_not_negative _ _ dRxTx) in Hp as [Hpos Hneg]; split.
  - apply not_positive_cases, doppler_not_positive; assumption.
  - intros Mdd Mdt Mfc.
    destruct (moderate_signed _ Mdd) as [Sdd _].
    destruct (doppler_within _ _ _ false Mdd Mdt Mfc (Sdd Hpos) Hdt Sfc) as (m & e & E).
    exact (ltb_zero_of_negative _ _ _ E).
  - apply not_negative_cases, doppler_not_negative; assumption.
  - intros Mdd Mdt Mfc.
    destruct (moderate_signed _ Mdd) as [_ Sdd].
    destruct (doppler_within _ _ _ true Mdd Mdt Mfc (Sdd Hneg) Hdt Sfc) as (m & e & E).
    exact (ltb_zero_of_positive _ _ _ E).
Qed.

End SignConvention.

(** ** The synthetic trajectory *)

Lemma longitudes_increase (c : float) :
  In c cos_window ->
  strictly_increasing
    (map (fun t => Script.lon + Script.offset t / c) [0; 1; 2; 3; 4; 5; 6; 7; 8; 9; 10])
  = true.
Proof.
  assert (H : forallb (fun c => strictly_increasing
                (map (fun t => Script.lon + Script.offset t / c)
                     [0; 1; 2; 3; 4; 5; 6; 7; 8; 9; 10])) cos_window = true)
    by (vm_compute; reflexivity).
  rewrite forallb_forall in H. exact (H c).
Qed.

(** C6 on the code: the loop ends after eleven passes, with the
    timestamps 0 to 10, and every sample lies east of the one before it:
    the longitude grows, although track 270 is due west. *)
Theorem synthetic_trajectory_moves_east
    (lla2ecef : float -> float -> float -> Ecef) (Math_cos : float -> float) :
  In (Math_cos (Script.lat * Math_PI / 180)) cos_window ->
  exists h,
    Script.trajectory lla2ecef Math_cos 11 = Some h
    /\ timestamps h = [0; 1; 2; 3; 4; 5; 6; 7; 8; 9; 10]
    /\ positions h
       = map (fun t => lla2ecef Script.lat (Script.new_lon Math_cos t) (ft2m Script.alt))
             (timestamps h)
    /\ strictly_increasing (Script.longitudes Math_cos h) = true.
Proof.
  intros H.
  exists (mkArrays
            (map (fun t => lla2ecef Script.lat (Script.new_lon Math_cos t) (ft2m Script.alt))
                 [0; 1; 2; 3; 4; 5; 6; 7; 8; 9; 10])
            [0; 1; 2; 3; 4; 5; 6; 7; 8; 9; 10]).
  split; [reflexivity|]. split; [reflexivity|]. split; [reflexivity|].
  exact (longitudes_increase _ H).
Qed.

(** ** The velocity-based estimator *)

(** C8, on the estimator as modelled from the specification: without
    ground speed or without track it returns [null], and
    manualVerification reports that as such. *)
Theorem velocity_estimator_unavailable
    (Math_sin Math_cos : float -> float)
    (aircraft : Aircraft) (aircraft_ecef ecefRx ecefTx : Ecef)
    (dRxTar dTxTar fc : float) :
  gs aircraft = None \/ track aircraft = None ->
  calculateDopplerFromVelocity Math_sin Math_cos aircraft aircraft_ecef
    ecefRx ecefTx dRxTar dTxTar fc = None
  /\ report_manual
       (calculateDopplerFromVelocity Math_sin Math_cos aircraft aircraft_ecef
          ecefRx ecefTx dRxTar dTxTar fc) = DopplerNull.
Proof.
  intros H. unfold calculateDopplerFromVelocity.
  destruct H as [-> | ->]; [|destruct (gs aircraft)]; split; reflexivity.
Qed.

(** ** Concrete runs *)

(** C1 fails on the code: two samples with the timestamp 5 make the
    estimator return [-Infinity] to its caller. *)
Lemma equal_timestamps_surface_infinity :
  calculatePositionBasedDoppler vectorNorm [near; far] [5; 5]
    origin origin 0 204.64 = Some neg_infinity.
Proof. vm_compute. reflexivity. Qed.

Lemma equal_timestamps_return_nonfinite_witness :
  ((5 =? 5) = true \/ 5 = 5)
  /\ exists v,
       calculatePositionBasedDoppler vectorNorm
         (positions_of ([] ++ [(near, 5); (far, 5)]))
         (timestamps_of ([] ++ [(near, 5); (far, 5)]))
         origin origin 0 204.64 = Some v
       /\ is_finite v = false.
Proof.
  split; [right; reflexivity|].
  apply (equal_timestamps_return_nonfinite vectorNorm [] (near, 5) (far, 5)).
  right. reflexivity.
Defined.

Lemma estimator_delays_are_excess_bistatic_paths_witness :
  (forall v, vectorNorm v = vectorNorm v)
  /\ (2 <= length [near; far])%nat
  /\ (forall i pos,
        nth_error [near; far] i = Some pos ->
        nth_error (delays vectorNorm origin origin 0 [near; far]) i
        = Some (euclidean_distance origin pos + euclidean_distance origin pos - 0))
  /\ calculatePositionBasedDoppler vectorNorm [near; far] [0; 1] origin origin 0 204.64
     = Some (- ((idx (delays vectorNorm origin origin 0 [near; far]) (2 - 1)
                 - idx (delays vectorNorm origin origin 0 [near; far]) (2 - 2))
                / (idx [0; 1] (2 - 1) - idx [0; 1] (2 - 2)))
             / (299792458 / (204.64 * 1000000))).
Proof.
  split; [reflexivity|]. split; [simpl; lia|].
  apply (estimator_delays_are_excess_bistatic_paths vectorNorm [near; far] [0; 1]
           origin origin 0 204.64); [reflexivity|simpl; lia].
Defined.

Lemma doppler_is_range_rate_over_wavelength_witness :
  (0 =? 1) = false /\ (0 <? 204.64) = true
  /\ calculatePositionBasedDoppler vectorNorm
       (positions_of ([] ++ [(near, 0); (far, 1)]))
       (timestamps_of ([] ++ [(near, 0); (far, 1)]))
       origin origin 0 204.64
     = Some (- spec_rangeRate (spec_delay vectorNorm origin origin 0 near)
                              (spec_delay vectorNorm origin origin 0 far) 0 1
             / spec_wavelength 204.64).
Proof.
  split; [reflexivity|]. split; [reflexivity|].
  apply (doppler_is_range_rate_over_wavelength vectorNorm [] (near, 0) (far, 1));
    reflexivity.
Defined.

Lemma insufficient_history_unavailable_witness :
  (length [near] < 2)%nat
  /\ calculatePositionBasedDoppler vectorNorm [near] [0] origin origin 0 204.64
     = None.
Proof.
  split; [simpl; lia|].
  apply (insufficient_history_unavailable vectorNorm [near] [0]). simpl. lia.
Defined.

Lemma two_invocations_return_same_result_witness :
  (forall v w1 w2, fst (counting_norm v w1) = fst (counting_norm v w2))
  /\ (let first :=
        Procedure.calculatePositionBasedDoppler counting_norm [near; far] [0; 1]
          origin origin 0 204.64 0%nat in
      let second :=
        Procedure.calculatePositionBasedDoppler counting_norm [near; far] [0; 1]
          origin origin 0 204.64 (snd first) in
      fst first = fst second
      /\ fst first
         = calculatePositionBasedDoppler (fun v => fst (counting_norm v 0%nat))
             [near; far] [0; 1] origin origin 0 204.64).
Proof.
  split; [reflexivity|].
  apply (two_invocations_return_same_result nat counting_norm [near; far] [0; 1]
           origin origin 0 204.64 0%nat).
  reflexivity.
Defined.

(** The condition on [norm] is needed: with a norm whose value drifts
    with the number of calls made, the second invocation returns another
    value than the first, and the four calls of each invocation are
    counted in the state. *)
Lemma drifting_norm_results_differ :
  let first :=
    Procedure.calculatePositionBasedDoppler drifting_norm [near; far] [0; 1]
      origin origin 0 204.64 0%nat in
  let second :=
    Procedure.calculatePositionBasedDoppler drifting_norm [near; far] [0; 1]
      origin origin 0 204.64 (snd first) in
  snd first = 4%nat /\ snd second = 8%nat /\ fst first <> fst second.
Proof.
  cbv zeta. split; [reflexivity|]. split; [reflexivity|].
  intros H.
  apply (f_equal (fun r => match r with Some v => 0 <? v | None => false end)) in H.
  vm_compute in H. discriminate.
Qed.

Lemma synthetic_trajectory_moves_east_witness :
  In 0.8191520442889918 cos_window
  /\ exists h,
       Script.trajectory mkEcef (fun _ => 0.8191520442889918) 11 = Some h
       /\ timestamps h = [0; 1; 2; 3; 4; 5; 6; 7; 8; 9; 10]
       /\ positions h
          = map (fun t => mkEcef Script.lat
                            (Script.new_lon (fun _ => 0.8191520442889918) t)
                            (ft2m Script.alt))
                (timestamps h)
       /\ strictly_increasing
            (Script.longitudes (fun _ => 0.8191520442889918) h) = true.
Proof.
  assert (H : In 0.8191520442889918 cos_window).
  { vm_compute. do 16 right. left. reflexivity. }
  split; [exact H|].
  apply (synthetic_trajectory_moves_east mkEcef (fun _ => 0.8191520442889918)).
  exact H.
Defined.

Lemma velocity_estimator_unavailable_witness :
  let aircraft := mkAircraft (-35.0) 138.65 30100 None (Some 270) None in
  (gs aircraft = None \/ track aircraft = None)
  /\ calculateDopplerFromVelocity (fun _ => 0) (fun _ => 1) aircraft
       far origin origin 2 2 204.64 = None
  /\ report_manual
       (calculateDopplerFromVelocity (fun _ => 0) (fun _ => 1) aircraft
          far origin origin 2 2 204.64) = DopplerNull.
Proof.
  intros aircraft. split; [left; reflexivity|].
  apply (velocity_estimator_unavailable (fun _ => 0) (fun _ => 1) aircraft).
  left. reflexivity.
Defined.

(** C5 fails on the code: the timestamps increase, the carrier frequency
    is positive and the bistatic path grows from 2 to 4, yet the range
    rate and the wavelength both overflow and the result is NaN, which is
    not negative.  ([0x1p-1074] is [Number.MIN_VALUE], 5e-324.) *)
Lemma receding_target_result_nan :
  (0 <? 0x1p-1074) = true
  /\ (bistatic_path vectorNorm origin origin near
      <? bistatic_path vectorNorm origin origin far) = true
  /\ calculatePositionBasedDoppler vectorNorm [near; far] [0; 0x1p-1074]
       origin origin 0 0x1p-1074 = Some nan
  /\ (nan <? 0) = false.
Proof. vm_compute. repeat split; reflexivity. Qed.

Lemma sign_convention_in_binary64_witness :
  (0 <? 1) = true /\ (0 <? 204.64) = true
  /\ moderate (delay_of vectorNorm origin origin 0 far
               - delay_of vectorNorm origin origin 0 near) = true
  /\ moderate (1 - 0) = true
  /\ moderate 204.64 = true
  /\ (bistatic_path vectorNorm origin origin near
      <? bistatic_path vectorNorm origin origin far) = true
  /\ exists v,
       calculatePositionBasedDoppler vectorNorm
         (positions_of ([] ++ [(near, 0); (far, 1)]))
         (timestamps_of ([] ++ [(near, 0); (far, 1)]))
         origin origin 0 204.64 = Some v
       /\ (v <? 0) = true.
Proof.
  split; [reflexivity|]. split; [reflexivity|].
  split; [vm_compute; reflexivity|]. split; [vm_compute; reflexivity|].
  split; [vm_compute; reflexivity|]. split; [vm_compute; reflexivity|].
  destruct (sign_convention_in_binary64 vectorNorm [] (near, 0) (far, 1)
              origin origin 0 204.64 eq_refl eq_refl) as (v & E & Hgrow & _).
  exists v. split; [exact E|].
  apply Hgrow; vm_compute; reflexivity.
Defined.

(** With the timestamps one second apart and the same carrier frequency
    the quotient underflows instead: the result is [-0], and [-0 < 0] is
    false. *)
Lemma receding_target_result_zero :
  calculatePositionBasedDoppler vectorNorm [near; far] [0; 1]
    origin origin 0 0x1p-1074 = Some (-0)
  /\ (-0 <? 0) = false.
Proof. vm_compute. split; reflexivity. Qed.

(** A baseline that absorbs the difference of the two paths: the path
    shrinks by one unit in the last place, the two delays are equal, and
    the result is [-0] where the claim has a positive value. *)
Lemma approaching_target_result_zero :
  (bistatic_path vectorNorm origin origin near
   <? bistatic_path vectorNorm origin origin (mkEcef 0x1.0000000000001p0 0 0)) = true
  /\ calculatePositionBasedDoppler vectorNorm
       [mkEcef 0x1.0000000000001p0 0 0; near] [0; 1]
       origin origin 1e20 204.64 = Some (-0).
Proof. vm_compute. split; reflexivity. Qed.

(** * Further properties of the scripts *)

(** ** More facts about binary64 arithmetic *)

Lemma sub_nan_l (a : float) : nan - a = nan.
Proof.
  apply Prim2SF_inj. rewrite sub_spec. change (Prim2SF nan) with S754_nan.
  destruct (Prim2SF a); reflexivity.
Qed.

Lemma div_nan_l (a : float) : nan / a = nan.
Proof.
  apply Prim2SF_inj. rewrite div_spec. change (Prim2SF nan) with S754_nan.
  destruct (Prim2SF a); reflexivity.
Qed.

Lemma div_nan_r (a : float) : a / nan = nan.
Proof.
  apply Prim2SF_inj. rewrite div_spec. change (Prim2SF nan) with S754_nan.
  destruct (Prim2SF a); reflexivity.
Qed.

Lemma SFdiv_zero_or_nan_l (a b : spec_float) :
  SFzero_or_nan a -> SFzero_or_nan (SF64div a b).
Proof.
  destruct a as [sa|sa| |sa ma ea]; simpl; try contradiction; intros _;
    destruct b as [sb|sb| |sb mb eb]; exact I.
Qed.

Lemma SFopp_zero_or_nan (a : spec_float) :
  SFzero_or_nan a -> SFzero_or_nan (SFopp a).
Proof. destruct a; simpl; auto. Qed.

Lemma zero_or_nan_cases (v : float) :
  SFzero_or_nan (Prim2SF v) -> (v =? 0) = true \/ is_nan v = true.
Proof.
  unfold is_nan. rewrite !eqb_spec. change (Prim2SF 0) with (S754_zero false).
  destruct (Prim2SF v) as [s|s| |s m e]; simpl; try contradiction; auto.
Qed.

(** The sign given to the rounding can be changed afterwards. *)
Lemma binary_round_aux_opp (s : bool) (m e : Z) (l : location) :
  binary_round_aux prec emax (negb s) m e l
  = SFopp (binary_round_aux prec emax s m e l).
Proof.
  unfold binary_round_aux.
  destruct (shr_fexp prec emax m e l) as [mrs' e'].
  destruct (shr_fexp prec emax _ e' loc_Exact) as [mrs'' e''].
  destruct (shr_m mrs''); try reflexivity.
  destruct (e'' <=? emax - prec)%Z; reflexivity.
Qed.

Lemma binary_normalize_opp (M e : Z) :
  M <> 0%Z ->
  binary_normalize prec emax (- M) e false
  = SFopp (binary_normalize prec emax M e false).
Proof.
  destruct M as [|p|p]; intros H; try congruence; simpl.
  - apply binary_round_opp.
  - rewrite binary_round_opp. destruct (binary_round prec emax false p e) as [[]|[]| |[] ? ?];
      reflexivity.
Qed.

Lemma SFdiv_opp_l (a b : spec_float) :
  SF64div (SFopp a) b = SFopp (SF64div a b).
Proof.
  destruct a as [sa|sa| |sa ma ea], b as [sb|sb| |sb mb eb];
    try reflexivity;
    try (destruct sa, sb; reflexivity).
  change (SFopp (S754_finite sa ma ea)) with (S754_finite (negb sa) ma ea).
  unfold SF64div, SFdiv.
  destruct (SFdiv_core_binary prec emax (Zpos ma) ea (Zpos mb) eb) as [[mz ez] lz].
  replace (xorb (negb sa) sb) with (negb (xorb sa sb))
    by (destruct sa, sb; reflexivity).
  apply binary_round_aux_opp.
Qed.

Lemma SFdiv_opp_r (a b : spec_float) :
  SF64div a (SFopp b) = SFopp (SF64div a b).
Proof.
  destruct a as [sa|sa| |sa ma ea], b as [sb|sb| |sb mb eb];
    try reflexivity;
    try (destruct sa, sb; reflexivity).
  change (SFopp (S754_finite sb mb eb)) with (S754_finite (negb sb) mb eb).
  unfold SF64div, SFdiv.
  destruct (SFdiv_core_binary prec emax (Zpos ma) ea (Zpos mb) eb) as [[mz ez] lz].
  replace (xorb sa (negb sb)) with (negb (xorb sa sb))
    by (destruct sa, sb; reflexivity).
  apply binary_round_aux_opp.
Qed.

Lemma SFcompare_antisym (a b : spec_float) :
  SFcompare b a = option_map CompOpp (SFcompare a b).
Proof.
  destruct a as [[]|[]| |[] ma ea], b as [[]|[]| |[] mb eb]; try reflexivity;
    cbn [SFcompare option_map]; rewrite (Z.compare_antisym ea eb);
    destruct (Z.compare ea eb); cbn [CompOpp]; try reflexivity.
  - change (Some (CompOpp (Pos.compare mb ma))
            = Some (CompOpp (CompOpp (Pos.compare ma mb)))).
    rewrite (Pos.compare_antisym ma mb). reflexivity.
  - change (Some (Pos.compare mb ma) = Some (CompOpp (Pos.compare ma mb))).
    rewrite (Pos.compare_antisym ma mb). reflexivity.
Qed.

(** The exact difference of two unequal numbers is not zero. *)
Lemma aligned_neq (sa : bool) (ma : positive) (ea : Z)
    (sb : bool) (mb : positive) (eb : Z) :
  bounded prec emax ma ea = true -> bounded prec emax mb eb = true ->
  SFeqb (S754_finite sa ma ea) (S754_finite sb mb eb) = false ->
  aligned sa ma ea (Z.min ea eb) <> aligned sb mb eb (Z.min ea eb).
Proof.
  intros Va Vb. unfold SFeqb.
  destruct (SFcompare (S754_finite sa ma ea) (S754_finite sb mb eb))
    as [[]|] eqn:C; try discriminate; intros _.
  - pose proof (SFcompare_Lt_aligned prec emax _ _ _ _ _ _ Va Vb C). lia.
  - assert (C' : SFcompare (S754_finite sb mb eb) (S754_finite sa ma ea) = Some Lt)
      by (rewrite SFcompare_antisym, C; reflexivity).
    pose proof (SFcompare_Lt_aligned prec emax _ _ _ _ _ _ Vb Va C') as H.
    rewrite (Z.min_comm eb ea) in H. lia.
Qed.

(** Exchanging the operands of a subtraction negates the difference,
    unless the two are equal. *)
Lemma SFsub_swap (a b : spec_float) :
  SpecFloat.valid_binary prec emax a = true ->
  SpecFloat.valid_binary prec emax b = true ->
  SFeqb a b = false ->
  SF64sub b a = SFopp (SF64sub a b).
Proof.
  intros Va Vb E.
  destruct a as [sa|sa| |sa ma ea], b as [sb|sb| |sb mb eb];
    try reflexivity; try discriminate;
    try (destruct sa, sb; try reflexivity; discriminate);
    try (destruct sa; reflexivity); try (destruct sb; reflexivity).
  pose proof (aligned_neq _ _ _ _ _ _ Va Vb E) as N.
  unfold SF64sub, SFsub. cbv zeta. rewrite (Z.min_comm eb ea).
  fold (aligned sa ma ea (Z.min ea eb)). fold (aligned sb mb eb (Z.min ea eb)).
  rewrite <- binary_normalize_opp by lia. f_equal. lia.
Qed.

Lemma sub_swap (a b : float) : (a =? b) = false -> b - a = - (a - b).
Proof.
  intros E. apply Prim2SF_inj. rewrite opp_spec, !sub_spec.
  apply SFsub_swap; auto using Prim2SF_valid. rewrite <- eqb_spec. exact E.
Qed.

Lemma div_opp_l (a b : float) : (- a) / b = - (a / b).
Proof.
  apply Prim2SF_inj. rewrite opp_spec, !div_spec, opp_spec. apply SFdiv_opp_l.
Qed.

Lemma div_opp_r (a b : float) : a / (- b) = - (a / b).
Proof.
  apply Prim2SF_inj. rewrite opp_spec, !div_spec, opp_spec. apply SFdiv_opp_r.
Qed.

Lemma opp_involutive (a : float) : - - a = a.
Proof.
  apply Prim2SF_inj. rewrite !opp_spec.
  destruct (Prim2SF a) as [[]|[]| |[] ? ?]; reflexivity.
Qed.

(** ** The estimator on arrays of different lengths, and on special histories *)

Section EstimatorEdges.

Variable norm : list float -> float.

(** X1: when [timestamps] has fewer entries than [positions], the read of
    [timestamps[n-1]] is past its end: the estimator raises nothing and
    does not return [null], it returns NaN. *)
Theorem short_timestamps_give_nan
    (positions : list Ecef) (timestamps : list float)
    (ecefRx ecefTx : Ecef) (dRxTx fc : float) :
  (2 <= length positions)%nat ->
  (length timestamps < length positions)%nat ->
  calculatePositionBasedDoppler norm positions timestamps ecefRx ecefTx dRxTx fc
  = Some nan.
Proof.
  intros H2 Hlt. unfold calculatePositionBasedDoppler, delays.
  replace (length positions <? 2)%nat with false
    by (symmetry; apply Nat.ltb_ge; exact H2).
  cbv zeta. rewrite length_map.
  assert (E : idx timestamps (length positions - 1) = nan)
    by (unfold idx; apply nth_overflow; lia).
  rewrite E, sub_nan_l, div_nan_r.
  change (- nan) with nan. rewrite div_nan_l. reflexivity.
Qed.

(** X2: the two timestamps are read at the indices given by the length of
    [positions]: entries of [timestamps] beyond that length are ignored. *)
Theorem surplus_timestamps_ignored
    (positions : list Ecef) (timestamps extra : list float)
    (ecefRx ecefTx : Ecef) (dRxTx fc : float) :
  length timestamps = length positions ->
  calculatePositionBasedDoppler norm positions (timestamps ++ extra)
    ecefRx ecefTx dRxTx fc
  = calculatePositionBasedDoppler norm positions timestamps
      ecefRx ecefTx dRxTx fc.
Proof.
  intros Hlen. unfold calculatePositionBasedDoppler, delays.
  destruct (length positions <? 2)%nat eqn:E; [reflexivity|].
  apply Nat.ltb_ge in E. cbv zeta. rewrite length_map. unfold idx.
  rewrite !app_nth1 by lia. reflexivity.
Qed.

(** X3: a target that has not moved between the last two samples gets a zero
    or NaN, whatever the timestamps and the carrier frequency are: never
    a Doppler shift that is not zero. *)
Theorem stationary_target_zero_or_nan
    (h : list PositionSample) (pos : Ecef) (t_prev t_last : float)
    (ecefRx ecefTx : Ecef) (dRxTx fc : float) :
  exists v,
    calculatePositionBasedDoppler norm
      (positions_of (h ++ [(pos, t_prev); (pos, t_last)]))
      (timestamps_of (h ++ [(pos, t_prev); (pos, t_last)]))
      ecefRx ecefTx dRxTx fc = Some v
    /\ ((v =? 0) = true \/ is_nan v = true).
Proof.
  rewrite doppler_history. eexists. split; [reflexivity|].
  apply zero_or_nan_cases. cbn [fst snd].
  rewrite div_spec, opp_spec, div_spec, (sub_spec (delay_of _ _ _ _ _)).
  apply SFdiv_zero_or_nan_l, SFopp_zero_or_nan, SFdiv_zero_or_nan_l.
  destruct (SFsub_diag (Prim2SF (delay_of norm ecefRx ecefTx dRxTx pos)))
    as [-> | ->]; exact I.
Qed.

(** X4: exchanging the positions of the last two samples, the timestamps
    staying in place, negates the result, provided the two delays are
    not equal. *)
Theorem swapped_positions_negate
    (h : list PositionSample) (p1 p2 : Ecef) (t_prev t_last : float)
    (ecefRx ecefTx : Ecef) (dRxTx fc : float) :
  (delay_of norm ecefRx ecefTx dRxTx p1
   =? delay_of norm ecefRx ecefTx dRxTx p2) = false ->
  calculatePositionBasedDoppler norm
    (positions_of (h ++ [(p2, t_prev); (p1, t_last)]))
    (timestamps_of (h ++ [(p2, t_prev); (p1, t_last)]))
    ecefRx ecefTx dRxTx fc
  = option_map opp
      (calculatePositionBasedDoppler norm
         (positions_of (h ++ [(p1, t_prev); (p2, t_last)]))
         (timestamps_of (h ++ [(p1, t_prev); (p2, t_last)]))
         ecefRx ecefTx dRxTx fc).
Proof.
  intros E. rewrite !doppler_history. cbn [fst snd option_map]. f_equal.
  rewrite (sub_swap _ _ E). rewrite !div_opp_l, opp_involutive. reflexivity.
Qed.

(** X5: giving the last two samples in the opposite order does not change
    the result, provided neither the two delays nor the two timestamps
    are equal. *)
Theorem reversed_samples_same_result
    (h : list PositionSample) (p1 p2 : Ecef) (t1 t2 : float)
    (ecefRx ecefTx : Ecef) (dRxTx fc : float) :
  (delay_of norm ecefRx ecefTx dRxTx p1
   =? delay_of norm ecefRx ecefTx dRxTx p2) = false ->
  (t1 =? t2) = false ->
  calculatePositionBasedDoppler norm
    (positions_of (h ++ [(p2, t2); (p1, t1)]))
    (timestamps_of (h ++ [(p2, t2); (p1, t1)]))
    ecefRx ecefTx dRxTx fc
  = calculatePositionBasedDoppler norm
      (positions_of (h ++ [(p1, t1); (p2, t2)]))
      (timestamps_of (h ++ [(p1, t1); (p2, t2)]))
      ecefRx ecefTx dRxTx fc.
Proof.
  intros Ed Et. rewrite !doppler_history. cbn [fst snd]. do 3 f_equal.
  rewrite (sub_swap _ _ Ed), (sub_swap _ _ Et).
  rewrite div_opp_l, div_opp_r, opp_involutive. reflexivity.
Qed.

End EstimatorEdges.

(** ** The script end to end *)

(** X9: in analyze_discrepancy.js the loop hands the estimator eleven
    positions and eleven timestamps.  Whatever [lla2ecef], [norm] and
    [Math.cos] are, [aircraft_ecef] is the sample of t = 10 and the
    position-based value is a number, computed from the samples of t = 9
    and t = 10 alone with a time step of exactly 1. *)
Theorem script_uses_last_two_samples
    (norm : list float -> float)
    (lla2ecef : float -> float -> float -> Ecef) (Math_cos : float -> float) :
  let sample t :=
    lla2ecef Script.lat (Script.new_lon Math_cos t) (ft2m Script.alt) in
  let delay :=
    delay_of norm (Analysis.ecefRx lla2ecef) (Analysis.ecefTx lla2ecef)
      (Analysis.dRxTx norm lla2ecef) in
  Analysis.run norm lla2ecef Math_cos 11
  = Some (Some (sample 10),
          Some (- ((delay (sample 10) - delay (sample 9)) / 1)
                / spec_wavelength Script.fc)).
Proof.
  intros sample delay. unfold Analysis.run.
  change (Script.trajectory lla2ecef Math_cos 11)
    with (Some (mkArrays
                  (map sample [0; 1; 2; 3; 4; 5; 6; 7; 8] ++ [sample 9; sample 10])
                  ([0; 1; 2; 3; 4; 5; 6; 7; 8] ++ [9; 10]))).
  unfold Analysis.doppler_pos. cbn [positions timestamps].
  rewrite doppler_last_two by reflexivity.
  reflexivity.
Qed.

(** ** The comparison of manualVerification *)

Lemma SFabs_signed (a : spec_float) :
  SFabs a = S754_nan \/ SFsigned false (SFabs a).
Proof. destruct a; simpl; auto. Qed.

Lemma is_finite_spec (v : float) :
  is_finite v = false <-> SFnonfinite (Prim2SF v).
Proof.
  split; [|apply is_finite_false].
  unfold is_finite, is_nan, is_infinity.
  rewrite !eqb_spec, abs_spec.
  change (Prim2SF infinity) with (S754_infinity false).
  destruct (Prim2SF v) as [[]|[]| |[] m e]; try discriminate;
    try (intros _; exact I);
    unfold SFeqb; cbn [SFabs SFcompare]; rewrite Z.compare_refl;
    change (Pos.compare_cont Eq m m) with (Pos.compare m m);
    rewrite Pos.compare_refl; discriminate.
Qed.

(** [+Infinity] and NaN fail both thresholds. *)
Lemma classify_fail (p : float) :
  Prim2SF p = S754_infinity false \/ Prim2SF p = S754_nan ->
  Manual.classify p = Manual.FAIL.
Proof.
  unfold Manual.classify. rewrite !ltb_spec.
  assert (H1 : exists m e, Prim2SF 1 = S754_finite false m e)
    by (vm_compute; eauto).
  assert (H5 : exists m e, Prim2SF 5 = S754_finite false m e)
    by (vm_compute; eauto).
  destruct H1 as (m1 & e1 & ->), H5 as (m5 & e5 & ->).
  intros [-> | ->]; reflexivity.
Qed.

Lemma SFmul_100 (a : spec_float) :
  a = S754_infinity false \/ a = S754_nan ->
  SF64mul a (Prim2SF 100) = S754_infinity false
  \/ SF64mul a (Prim2SF 100) = S754_nan.
Proof.
  assert (H : exists m e, Prim2SF 100 = S754_finite false m e)
    by (vm_compute; eauto).
  destruct H as (m & e & ->). intros [-> | ->]; auto.
Qed.

(** A quotient whose dividend is [+Infinity] or NaN and whose divisor is
    an absolute value. *)
Lemma SFdiv_pinf_abs (a b : spec_float) :
  a = S754_infinity false \/ a = S754_nan ->
  SF64div a (SFabs b) = S754_infinity false \/ SF64div a (SFabs b) = S754_nan.
Proof.
  intros [-> | ->]; destruct b as [sb|sb| |sb mb eb]; simpl; auto.
Qed.

Lemma SFabs_nonfinite (a : spec_float) :
  SFnonfinite a -> SFabs a = S754_infinity false \/ SFabs a = S754_nan.
Proof. destruct a; simpl; auto; contradiction. Qed.

Lemma SFsub_nonfinite (a b : spec_float) :
  SFnonfinite a \/ SFnonfinite b -> SFnonfinite (SF64sub a b).
Proof.
  intros [H | H].
  - destruct a as [sa|[]| |sa ma ea]; simpl in H; try contradiction;
      destruct b as [sb|[]| |sb mb eb]; exact I.
  - destruct b as [sb|[]| |sb mb eb]; simpl in H; try contradiction;
      destruct a as [sa|[]| |sa ma ea]; exact I.
Qed.

Lemma percent_diff_spec (api manual : float) :
  Prim2SF (Manual.percent_diff api manual)
  = SF64mul
      (SF64div (SFabs (SF64sub (Prim2SF api) (Prim2SF manual)))
               (SFabs (Prim2SF manual)))
      (Prim2SF 100).
Proof.
  unfold Manual.percent_diff, Manual.diff.
  rewrite mul_spec, div_spec, !abs_spec, sub_spec. reflexivity.
Qed.

Lemma comparison_velocity (manual api_doppler : float) :
  Manual.comparison (Some manual) api_doppler Manual.velocity
  = Some (Manual.classify (Manual.percent_diff api_doppler manual)).
Proof. reflexivity. Qed.

(** Dividing by a manual value of zero gives [+Infinity] or NaN. *)
Lemma percent_of_zero_manual (manual api_doppler : float) :
  (manual =? 0) = true ->
  Prim2SF (Manual.percent_diff api_doppler manual) = S754_infinity false
  \/ Prim2SF (Manual.percent_diff api_doppler manual) = S754_nan.
Proof.
  intros Hz. rewrite percent_diff_spec. apply SFmul_100.
  rewrite eqb_spec in Hz. change (Prim2SF 0) with (S754_zero false) in Hz.
  destruct (Prim2SF manual) as [sm|[]| |[] mm em]; try discriminate.
  destruct (SFabs_signed (SF64sub (Prim2SF api_doppler) (S754_zero sm)))
    as [-> | H]; [right; reflexivity|].
  destruct (SFabs (SF64sub (Prim2SF api_doppler) (S754_zero sm)))
    as [s|s| |s m e]; simpl in H; try contradiction; subst; simpl; auto.
Qed.

(** So does an infinity or NaN on either side. *)
Lemma percent_of_nonfinite (manual api_doppler : float) :
  is_finite api_doppler = false \/ is_finite manual = false ->
  Prim2SF (Manual.percent_diff api_doppler manual) = S754_infinity false
  \/ Prim2SF (Manual.percent_diff api_doppler manual) = S754_nan.
Proof.
  intros H. rewrite percent_diff_spec. apply SFmul_100.
  rewrite !is_finite_spec in H.
  pose proof (SFabs_nonfinite _ (SFsub_nonfinite _ _ H)) as Hd.
  destruct H as [H | H].
  - apply SFdiv_pinf_abs, Hd.
  - destruct Hd as [-> | ->];
      destruct (Prim2SF manual) as [sm|sm| |sm mm em]; simpl in H;
      try contradiction; simpl; auto.
Qed.

(** A finite manual value other than zero agrees with itself to 0 percent. *)
Lemma percent_of_equal_values (manual : float) :
  is_finite manual = true -> (manual =? 0) = false ->
  Manual.classify (Manual.percent_diff manual manual) = Manual.PASS.
Proof.
  intros F Z. unfold Manual.classify.
  rewrite ltb_spec, percent_diff_spec.
  assert (H1 : exists m e, Prim2SF 1 = S754_finite false m e)
    by (vm_compute; eauto).
  assert (H100 : exists m e, Prim2SF 100 = S754_finite false m e)
    by (vm_compute; eauto).
  destruct H1 as (m1 & e1 & ->), H100 as (m100 & e100 & ->).
  assert (NF : ~ SFnonfinite (Prim2SF manual))
    by (rewrite <- is_finite_spec, F; discriminate).
  rewrite eqb_spec in Z. change (Prim2SF 0) with (S754_zero false) in Z.
  destruct (Prim2SF manual) as [sm|sm| |sm mm em];
    try (exfalso; apply NF; exact I); try discriminate.
  unfold SF64sub, SFsub. cbv zeta. rewrite Z.sub_diag.
  reflexivity.
Qed.

(** X11: a manual value of zero fails the comparison whatever the API
    returned, equal values included: the percentage divides by zero. *)
Theorem zero_manual_always_fails
    (manual api_doppler : float) :
  (manual =? 0) = true ->
  Manual.comparison (Some manual) api_doppler Manual.velocity
  = Some Manual.FAIL.
Proof.
  intros Hz. rewrite comparison_velocity. f_equal.
  apply classify_fail, percent_of_zero_manual, Hz.
Qed.

(** X12: an infinity or NaN on either side fails the comparison; an API
    value that [parseFloat] could not read is NaN. *)
Theorem nonfinite_value_fails
    (manual api_doppler : float) :
  is_finite api_doppler = false \/ is_finite manual = false ->
  Manual.comparison (Some manual) api_doppler Manual.velocity
  = Some Manual.FAIL.
Proof.
  intros H. rewrite comparison_velocity. f_equal.
  apply classify_fail, percent_of_nonfinite, H.
Qed.

(** X13: when the API returns the very value computed by hand, the
    verdict is PASS exactly when that value is finite and not zero. *)
Theorem equal_values_pass_iff
    (manual : float) :
  Manual.comparison (Some manual) manual Manual.velocity = Some Manual.PASS
  <-> is_finite manual = true /\ (manual =? 0) = false.
Proof.
  rewrite comparison_velocity. split.
  - intros H.
    destruct (is_finite manual) eqn:F.
    + split; [reflexivity|].
      destruct (manual =? 0) eqn:Z; [|reflexivity].
      rewrite (classify_fail _ (percent_of_zero_manual manual manual Z)) in H.
      discriminate.
    + rewrite (classify_fail _ (percent_of_nonfinite manual manual (or_intror F)))
        in H.
      discriminate.
  - intros [F Z]. f_equal. apply percent_of_equal_values; assumption.
Qed.

Lemma SFabs_opp (a : spec_float) : SFabs (SFopp a) = SFabs a.
Proof. destruct a; reflexivity. Qed.

Lemma SFabs_sub_opp (a b : spec_float) :
  SFabs (SF64sub (SFopp a) (SFopp b)) = SFabs (SF64sub a b).
Proof.
  destruct a as [sa|sa| |sa ma ea], b as [sb|sb| |sb mb eb];
    try reflexivity;
    try (destruct sa, sb; reflexivity);
    try (destruct sa; reflexivity); try (destruct sb; reflexivity).
  unfold SF64sub, SFsub, SFopp. cbv zeta.
  set (A := Zpos (fst (shl_align ma ea (Z.min ea eb)))).
  set (B := Zpos (fst (shl_align mb eb (Z.min ea eb)))).
  destruct (Z.eq_dec (cond_Zopp sa A - cond_Zopp sb B) 0) as [E | N].
  - assert (E' : (cond_Zopp (negb sa) A - cond_Zopp (negb sb) B = 0)%Z)
      by (clearbody A B; destruct sa, sb; unfold cond_Zopp, negb in *; lia).
    rewrite E, E'. reflexivity.
  - replace (cond_Zopp (negb sa) A - cond_Zopp (negb sb) B)%Z
      with (- (cond_Zopp sa A - cond_Zopp sb B))%Z
      by (clearbody A B; destruct sa, sb; unfold cond_Zopp, negb; lia).
    rewrite binary_normalize_opp by exact N. apply SFabs_opp.
Qed.

(** X14: the verdict is the same when both values carry the opposite sign:
    it does not depend on the sign convention the two sides share. *)
Theorem comparison_sign_independent
    (manual api_doppler : float) (api_method : String.string) :
  Manual.comparison (Some (- manual)) (- api_doppler) api_method
  = Manual.comparison (Some manual) api_doppler api_method.
Proof.
  unfold Manual.comparison.
  destruct (String.eqb api_method Manual.velocity); [|reflexivity].
  do 2 f_equal. apply Prim2SF_inj.
  rewrite !percent_diff_spec, !opp_spec, SFabs_sub_opp, SFabs_opp.
  reflexivity.
Qed.

(** ** The carrier frequency and the timestamps at their edges *)

Lemma SFmul_opp_l (a b : spec_float) :
  SF64mul (SFopp a) b = SFopp (SF64mul a b).
Proof.
  destruct a as [sa|sa| |sa ma ea], b as [sb|sb| |sb mb eb];
    try reflexivity;
    try (destruct sa, sb; reflexivity).
  change (SFopp (S754_finite sa ma ea)) with (S754_finite (negb sa) ma ea).
  unfold SF64mul, SFmul.
  replace (xorb (negb sa) sb) with (negb (xorb sa sb))
    by (destruct sa, sb; reflexivity).
  apply binary_round_aux_opp.
Qed.

Lemma mul_opp_l (a b : float) : (- a) * b = - (a * b).
Proof.
  apply Prim2SF_inj. rewrite opp_spec, !mul_spec, opp_spec. apply SFmul_opp_l.
Qed.

Lemma SFdiv_infinity_r (a : spec_float) (s : bool) :
  SFzero_or_nan (SF64div a (S754_infinity s)).
Proof. destruct a; exact I. Qed.

(** The wavelength of a carrier frequency of zero is an infinity. *)
Lemma wavelength_of_zero (fc : float) :
  (fc =? 0) = true ->
  exists s, Prim2SF (299792458 / (fc * 1000000)) = S754_infinity s.
Proof.
  rewrite eqb_spec, div_spec, mul_spec.
  change (Prim2SF 0) with (S754_zero false).
  assert (Hm : exists m e, Prim2SF 1000000 = S754_finite false m e)
    by (vm_compute; eauto).
  assert (Hc : exists m e, Prim2SF 299792458 = S754_finite false m e)
    by (vm_compute; eauto).
  destruct Hm as (m & e & ->), Hc as (mc & ec & ->).
  destruct (Prim2SF fc) as [s|[]| |[] mf ef]; try discriminate.
  intros _. simpl. eauto.
Qed.

Lemma is_nan_eq (t : float) : is_nan t = true -> t = nan.
Proof.
  unfold is_nan. rewrite eqb_spec. intros H.
  apply Prim2SF_inj. change (Prim2SF nan) with S754_nan.
  destruct (Prim2SF t) as [[]|[]| |[] m e]; try discriminate; try reflexivity;
    exfalso; revert H; unfold SFeqb; cbn [SFcompare];
    rewrite Z.compare_refl;
    change (Pos.compare_cont Eq m m) with (Pos.compare m m);
    rewrite Pos.compare_refl; discriminate.
Qed.

Lemma sub_nan_r (a : float) : a - nan = nan.
Proof.
  apply Prim2SF_inj. rewrite sub_spec. change (Prim2SF nan) with S754_nan.
  destruct (Prim2SF a); reflexivity.
Qed.

Section FrequencyAndTime.

Variable norm : list float -> float.

(** X6: a carrier frequency of zero is not refused: the wavelength is
    infinite and every history of two or more samples gets a zero or
    NaN. *)
Theorem zero_frequency_zero_or_nan
    (positions : list Ecef) (timestamps : list float)
    (ecefRx ecefTx : Ecef) (dRxTx fc : float) :
  (2 <= length positions)%nat ->
  (fc =? 0) = true ->
  exists v,
    calculatePositionBasedDoppler norm positions timestamps
      ecefRx ecefTx dRxTx fc = Some v
    /\ ((v =? 0) = true \/ is_nan v = true).
Proof.
  intros H2 Hz. unfold calculatePositionBasedDoppler.
  replace (length positions <? 2)%nat with false
    by (symmetry; apply Nat.ltb_ge; exact H2).
  cbv zeta. eexists. split; [reflexivity|].
  apply zero_or_nan_cases. rewrite div_spec.
  destruct (wavelength_of_zero fc Hz) as [s ->].
  apply SFdiv_infinity_r.
Qed.

(** X7: a negative carrier frequency is not refused either: it gives the
    result of the positive frequency with the opposite sign. *)
Theorem negative_frequency_negates
    (positions : list Ecef) (timestamps : list float)
    (ecefRx ecefTx : Ecef) (dRxTx fc : float) :
  calculatePositionBasedDoppler norm positions timestamps
    ecefRx ecefTx dRxTx (- fc)
  = option_map opp
      (calculatePositionBasedDoppler norm positions timestamps
         ecefRx ecefTx dRxTx fc).
Proof.
  unfold calculatePositionBasedDoppler.
  destruct (length positions <? 2)%nat; [reflexivity|].
  cbv zeta. cbn [option_map]. f_equal.
  rewrite mul_opp_l, !div_opp_r. reflexivity.
Qed.

(** X8: a timestamp that is NaN in one of the last two samples makes the
    result NaN. *)
Theorem nan_timestamp_gives_nan
    (h : list PositionSample) (prev last : PositionSample)
    (ecefRx ecefTx : Ecef) (dRxTx fc : float) :
  is_nan (snd prev) = true \/ is_nan (snd last) = true ->
  calculatePositionBasedDoppler norm
    (positions_of (h ++ [prev; last])) (timestamps_of (h ++ [prev; last]))
    ecefRx ecefTx dRxTx fc
  = Some nan.
Proof.
  intros H. rewrite doppler_history. f_equal.
  assert (E : snd last - snd prev = nan).
  { destruct H as [H | H]; apply is_nan_eq in H; rewrite H;
      [apply sub_nan_r | apply sub_nan_l]. }
  rewrite E, div_nan_r. change (- nan) with nan. apply div_nan_l.
Qed.

End FrequencyAndTime.

(** ** The loop of the script *)

Section Loop.

Variable lla2ecef : float -> float -> float -> Ecef.
Variable Math_cos : float -> float.

(** X10: the loop keeps the two arrays in step: from arrays of equal length
    it ends, when it ends, with arrays of equal length, so that the
    estimator is never called with a timestamp missing. *)
Theorem for_loop_keeps_arrays_in_step
    (fuel : nat) (t : float) (h h' : Arrays) :
  length (positions h) = length (timestamps h) ->
  Script.for_loop lla2ecef Math_cos fuel t h = Some h' ->
  length (positions h') = length (timestamps h')
  /\ (length (positions h) <= length (positions h'))%nat.
Proof.
  revert t h. induction fuel as [|fuel IH]; intros t h Hlen; simpl.
  - destruct (t <=? 10); [discriminate|]. intros E. injection E as <-.
    split; [exact Hlen|lia].
  - destruct (t <=? 10).
    + intros E. apply IH in E.
      * unfold Script.push_sample in E. cbn [positions timestamps] in E.
        rewrite length_app in E. simpl in E. destruct E as [E1 E2].
        split; [exact E1|lia].
      * unfold Script.push_sample. cbn [positions timestamps].
        rewrite !length_app, Hlen. reflexivity.
    + intros E. injection E as <-. split; [exact Hlen|lia].
Qed.

End Loop.

(** ** Concrete runs of the further properties *)

Lemma short_timestamps_give_nan_witness :
  (2 <= length [near; far])%nat /\ (length [0] < length [near; far])%nat
  /\ calculatePositionBasedDoppler vectorNorm [near; far] [0]
       origin origin 0 204.64 = Some nan.
Proof.
  split; [simpl; lia|]. split; [simpl; lia|].
  apply (short_timestamps_give_nan vectorNorm [near; far] [0]); simpl; lia.
Defined.

Lemma surplus_timestamps_ignored_witness :
  length [0; 1] = length [near; far]
  /\ calculatePositionBasedDoppler vectorNorm [near; far] ([0; 1] ++ [7; 7])
       origin origin 0 204.64
     = calculatePositionBasedDoppler vectorNorm [near; far] [0; 1]
         origin origin 0 204.64.
Proof.
  split; [reflexivity|].
  apply (surplus_timestamps_ignored vectorNorm [near; far] [0; 1] [7; 7]).
  reflexivity.
Defined.

Lemma swapped_positions_negate_witness :
  (delay_of vectorNorm origin origin 0 near
   =? delay_of vectorNorm origin origin 0 far) = false
  /\ calculatePositionBasedDoppler vectorNorm
       (positions_of ([] ++ [(far, 0); (near, 1)]))
       (timestamps_of ([] ++ [(far, 0); (near, 1)]))
       origin origin 0 204.64
     = option_map opp
         (calculatePositionBasedDoppler vectorNorm
            (positions_of ([] ++ [(near, 0); (far, 1)]))
            (timestamps_of ([] ++ [(near, 0); (far, 1)]))
            origin origin 0 204.64).
Proof.
  split; [reflexivity|].
  apply (swapped_positions_negate vectorNorm [] near far 0 1). reflexivity.
Defined.

Lemma reversed_samples_same_result_witness :
  (delay_of vectorNorm origin origin 0 near
   =? delay_of vectorNorm origin origin 0 far) = false
  /\ (0 =? 1) = false
  /\ calculatePositionBasedDoppler vectorNorm
       (positions_of ([] ++ [(far, 1); (near, 0)]))
       (timestamps_of ([] ++ [(far, 1); (near, 0)]))
       origin origin 0 204.64
     = calculatePositionBasedDoppler vectorNorm
         (positions_of ([] ++ [(near, 0); (far, 1)]))
         (timestamps_of ([] ++ [(near, 0); (far, 1)]))
         origin origin 0 204.64.
Proof.
  split; [reflexivity|]. split; [reflexivity|].
  apply (reversed_samples_same_result vectorNorm [] near far 0 1); reflexivity.
Defined.

Lemma zero_manual_always_fails_witness :
  (0 =? 0) = true
  /\ Manual.comparison (Some 0) 0 Manual.velocity = Some Manual.FAIL.
Proof.
  split; [reflexivity|]. apply (zero_manual_always_fails 0 0). reflexivity.
Defined.

Lemma nonfinite_value_fails_witness :
  (is_finite nan = false \/ is_finite 12.5 = false)
  /\ Manual.comparison (Some 12.5) nan Manual.velocity = Some Manual.FAIL.
Proof.
  split; [left; reflexivity|].
  apply (nonfinite_value_fails 12.5 nan). left. reflexivity.
Defined.

Lemma zero_frequency_zero_or_nan_witness :
  (2 <= length [near; far])%nat /\ (0 =? 0) = true
  /\ exists v,
       calculatePositionBasedDoppler vectorNorm [near; far] [0; 1]
         origin origin 0 0 = Some v
       /\ ((v =? 0) = true \/ is_nan v = true).
Proof.
  split; [simpl; lia|]. split; [reflexivity|].
  apply (zero_frequency_zero_or_nan vectorNorm [near; far] [0; 1]);
    [simpl; lia | reflexivity].
Defined.

Lemma nan_timestamp_gives_nan_witness :
  (is_nan (snd (near, nan)) = true \/ is_nan (snd (far, 1)) = true)
  /\ calculatePositionBasedDoppler vectorNorm
       (positions_of ([] ++ [(near, nan); (far, 1)]))
       (timestamps_of ([] ++ [(near, nan); (far, 1)]))
       origin origin 0 204.64
     = Some nan.
Proof.
  split; [left; reflexivity|].
  apply (nan_timestamp_gives_nan vectorNorm [] (near, nan) (far, 1)).
  left. reflexivity.
Defined.

Lemma for_loop_keeps_arrays_in_step_witness :
  let h := mkArrays [near] [9] in
  let h' := Script.push_sample mkEcef (fun _ => 1) 10 h in
  length (positions h) = length (timestamps h)
  /\ Script.for_loop mkEcef (fun _ => 1) 1 10 h = Some h'
  /\ length (positions h') = length (timestamps h')
  /\ (length (positions h) <= length (positions h'))%nat.
Proof.
  intros h h'. split; [reflexivity|]. split; [reflexivity|].
  apply (for_loop_keeps_arrays_in_step mkEcef (fun _ => 1) 1 10 h h');
    reflexivity.
Defined.
